(** * xterm-js-shell: a shallow embedding of [src/index.js]

    The file models the two classes of the module, [XtermJSShell] (the
    session: command registry, attachment flag, REPL) and [SubShell] (the
    per-invocation context with its [destroyed] flag and its raw input
    stream), and proves properties of the registry, of auto-completion, of
    dispatch ([run]), of the loop ([repl]) and of the attach/detach
    handshake between the line editor and raw input streams.

    Conventions of the embedding.
    - Objects that the JavaScript code mutates live in one record, [Shell]:
      the fields of the [XtermJSShell] instance, the heap of [SubShell]
      objects it has created, the heap of [readStream] generators, and the
      calls that the collaborators (local-echo, the xterm terminal, the
      console, the registered handlers) have received so far, in order.
    - JavaScript lets any value be thrown. The code only ever reads
      [message] of what it catches, so a thrown value is an [Error]
      object, or [null] or [undefined] (reading [message] throws), or
      another value (a string, say), which has no [message].
    - [async] functions are run to their next settlement as one atomic
      step: the module is single-threaded and cooperative. A handler is
      the tree of the calls it makes; raw input that arrives while a
      handler waits is a step of that tree.
    - A handler is a finite tree, so every handler settles: a handler
      whose promise stays pending for ever is not modelled, and the
      statements about the loop are about passes that complete.
    - Left out: [env], [cols], [rows], the colour getters, the
      registration of [autoCompleteCommands] with local-echo, and the
      console warning of EventIterator when its queue grows long. None of
      them touches the state that the statements are about. *)

From Stdlib Require Import ZArith.
From stdpp Require Import base option list strings relations.

(* ===================================================================== *)
(** ** Values *)

(** [new Error(message)], [new TypeError(message)]. *)
Record exn : Type := Error { ename : string; message : string }.

Definition TypeError (msg : string) : exn := Error "TypeError" msg.

(** What [throw] is given and what a promise rejects with: an [Error]
    object, [null] or [undefined], or any other value without a [message]
    property, such as a string. *)
Inductive Thrown : Type :=
| Err (e : exn)
| NullValue
| OtherValue (v : string).

Coercion Err : exn >-> Thrown.

(** The [TypeError] of reading a property of [null] or [undefined]; the
    text is the engine's. *)
Definition no_properties : exn :=
  TypeError "Cannot read properties of null (reading 'message')".

(** The settled state of a promise; also used for "returned / threw". *)
Inductive Promise (A : Type) : Type :=
| Fulfilled (a : A)
| Rejected (e : Thrown).
Arguments Fulfilled {A} a.
Arguments Rejected {A} e.

(** [const ERROR_NOT_FOUND = command => `Command Not Found: ${command}`] *)
Definition ERROR_NOT_FOUND (command : string) : string :=
  "Command Not Found: " +:+ command.

(** [const ERROR_ALREADY_REGISTERED = command => ...] *)
Definition ERROR_ALREADY_REGISTERED (command : string) : string :=
  "Command Already Registered: " +:+ command.

(** The object returned by [minimist(argv)]: the positional arguments
    (its [_] property) and the named flags. *)
Record Parsed : Type := {
  positional : list string;
  named : list (string * string)
}.

(* ===================================================================== *)
(** ** A JavaScript [Map] with string keys

    Keys are kept in insertion order; [set] on a key that is present
    replaces the value where it stands. *)

Fixpoint Map_get {V : Type} (k : string) (m : list (string * V)) : option V :=
  match m with
  | [] => None
  | (k', v) :: m' => if decide (k = k') then Some v else Map_get k m'
  end.

Definition Map_has {V : Type} (k : string) (m : list (string * V)) : bool :=
  match Map_get k m with Some _ => true | None => false end.

Fixpoint Map_set {V : Type} (k : string) (v : V) (m : list (string * V))
  : list (string * V) :=
  match m with
  | [] => [(k, v)]
  | (k', v') :: m' =>
      if decide (k = k') then (k, v) :: m' else (k', v') :: Map_set k v m'
  end.

Definition Map_keys {V : Type} (m : list (string * V)) : list string := m.*1.

(* ===================================================================== *)
(** ** What a command handler can do

    A handler receives its [SubShell] and talks to the world through it.
    Its behaviour is a tree of the calls it makes, each continuation
    receiving what the call answered. *)

(** The methods of [SubShell]. *)
Inductive Method : Type :=
| M_readStream
| M_readChar (msg : string)
| M_readLine (msg : string)
| M_abortRead (reason : string)
| M_print (msg : string)
| M_printLine (msg : string)
| M_printList (items : list string)
| M_clear
| M_destroy.

(** One step of an invocation: a method call on a [SubShell] (a handler may
    keep the context of an earlier invocation in a closure, so the target
    is any context), a pull or a close of a generator obtained from
    [readStream], or the terminal emitting a chunk of raw input while the
    handler is suspended. *)
Inductive Action : Type :=
| ACall (shell : nat) (m : Method)
| ANext (s : nat)
| AReturn (s : nat)
| AData (chunk : string).

(** What a call answers. *)
Inductive Reply : Type :=
| Undefined
| Text (s : string)
| Generator (s : nat)
| IterValue (data : string)
| IterDone
| Unsettled
| Threw (e : Thrown).

Inductive Script (R : Type) : Type :=
| Return (r : R)
| Throw (e : Thrown)
| Do (a : Action) (k : Reply → Script R).
Arguments Return {R} r.
Arguments Throw {R} e.
Arguments Do {R} a k.

(** The body of a generator function: it may also [yield]. *)
Inductive Gen : Type :=
| GDone
| GThrow (e : Thrown)
| GYield (data : string) (rest : Gen)
| GDo (a : Action) (k : Reply → Gen).

(** The value [fn(shell, args, flags)] returns, as far as [run] looks at
    it: [result.then], then [result.next]. *)
Inductive Result : Type :=
| Nullish
| Thenable (p : Script unit)
| Iterator (g : Gen)
| Plain.

Definition Command : Type := nat → list string → Parsed → Script Result.

Definition AutocompleteProvider : Type := Z → list string → list string.

(** The object stored in [this.commands]. *)
Record Entry : Type := {
  command_name : string;
  fn : Command;
  autocomplete : option AutocompleteProvider
}.

(* ===================================================================== *)
(** ** The state *)

(** Calls received by the collaborators, and promises of a raw stream
    settled by incoming data. *)
Inductive Event : Type :=
| EchoDetach
| EchoAttach
| EchoRead (prompt : string)
| EchoReadChar (prompt : string)
| EchoAbortRead (reason : string)
| EchoPrintln (msg : string)
| EchoPrintWide (items : list string)
| TermWrite (msg : string)
| TermClear
| TermOnData (s : nat)
| ListenerDispose (s : nat)
| ConsoleError (e : Thrown)
| ConsoleWarn (msg : string)
| HandlerCall (name : string) (shell : nat) (args : list string) (flags : Parsed)
| Delivered (s : nat) (r : Reply)
| EchoPrintlnUndefined.

(** An async generator made by [readStream]. [SuspendedStart]: its body
    has not run. [Awaiting]: the body waits in [for await] for the
    EventIterator's next item. [SuspendedYield]: the body stands at
    [yield data]. [buffer] is the EventIterator's queue, [requests] the
    generator's queue of calls made while it was running. *)
Inductive Phase : Type := SuspendedStart | Awaiting | SuspendedYield | Completed.

Inductive Request : Type := ReqNext | ReqReturn.

Record Stream : Type := {
  owner : nat;
  phase : Phase;
  buffer : list string;
  requests : list Request
}.

Record Shell : Type := {
  prompt : Promise string;
  commands : list (string * Entry);
  attached : bool;
  subshells : list bool;
  streams : list Stream;
  listeners : list nat;
  trace : list Event
}.

(** [constructor(term)] *)
Definition XtermJSShell_new : Shell :=
  {| prompt := Fulfilled "$ "; commands := []; attached := true;
     subshells := []; streams := []; listeners := []; trace := [] |}.

Definition log (e : Event) (w : Shell) : Shell :=
  {| prompt := prompt w; commands := commands w; attached := attached w;
     subshells := subshells w; streams := streams w;
     listeners := listeners w; trace := trace w ++ [e] |}.

Definition set_attached (b : bool) (w : Shell) : Shell :=
  {| prompt := prompt w; commands := commands w; attached := b;
     subshells := subshells w; streams := streams w;
     listeners := listeners w; trace := trace w |}.

Definition set_commands (m : list (string * Entry)) (w : Shell) : Shell :=
  {| prompt := prompt w; commands := m; attached := attached w;
     subshells := subshells w; streams := streams w;
     listeners := listeners w; trace := trace w |}.

Definition set_subshells (l : list bool) (w : Shell) : Shell :=
  {| prompt := prompt w; commands := commands w; attached := attached w;
     subshells := l; streams := streams w;
     listeners := listeners w; trace := trace w |}.

Definition set_streams (l : list Stream) (w : Shell) : Shell :=
  {| prompt := prompt w; commands := commands w; attached := attached w;
     subshells := subshells w; streams := l;
     listeners := listeners w; trace := trace w |}.

Definition set_listeners (l : list nat) (w : Shell) : Shell :=
  {| prompt := prompt w; commands := commands w; attached := attached w;
     subshells := subshells w; streams := streams w;
     listeners := l; trace := trace w |}.

Definition set_prompt (p : Promise string) (w : Shell) : Shell :=
  {| prompt := p; commands := commands w; attached := attached w;
     subshells := subshells w; streams := streams w;
     listeners := listeners w; trace := trace w |}.

Definition set_phase (p : Phase) (st : Stream) : Stream :=
  {| owner := owner st; phase := p; buffer := buffer st;
     requests := requests st |}.

Definition set_buffer (b : list string) (st : Stream) : Stream :=
  {| owner := owner st; phase := phase st; buffer := b;
     requests := requests st |}.

Definition set_requests (r : list Request) (st : Stream) : Stream :=
  {| owner := owner st; phase := phase st; buffer := buffer st;
     requests := r |}.

Definition put_stream (s : nat) (st : Stream) (w : Shell) : Shell :=
  set_streams (<[s := st]> (streams w)) w.

(* ===================================================================== *)
(** ** [XtermJSShell]: attachment, registry, auto-completion *)

(** [detach() { if (!this.attached) return; this.echo.detach();
    this.attached = false }] *)
Definition detach (w : Shell) : Shell :=
  if negb (attached w) then w else set_attached false (log EchoDetach w).

(** [attach() { if (this.attached) return; this.echo.attach();
    this.attached = true }] *)
Definition attach (w : Shell) : Shell :=
  if attached w then w else set_attached true (log EchoAttach w).

(** [command(command, fn, autocomplete)]; the result is [this]. *)
Definition command (name : string) (f : Command)
    (ac : option AutocompleteProvider) (w : Shell) : Shell :=
  let w1 :=
    if Map_has name (commands w)
    then log (ConsoleWarn (ERROR_ALREADY_REGISTERED name)) w
    else w in
  set_commands
    (Map_set name {| command_name := name; fn := f; autocomplete := ac |}
       (commands w1)) w1.

(** [autoCompleteCommands(index, tokens)]. [tokens[0]] is [undefined] on
    an empty array, which is no key of the map. *)
Definition autoCompleteCommands (index : Z) (tokens : list string)
    (w : Shell) : list string :=
  let command := head tokens in
  if (index =? 0)%Z then Map_keys (commands w)
  else match command with
       | None => []
       | Some c =>
           if Map_has c (commands w) then
             match Map_get c (commands w) with
             | Some entry =>
                 match autocomplete entry with
                 | None => []
                 | Some provider => provider (index - 1)%Z (tail tokens)
                 end
             | None => []
             end
           else []
       end.

(** A registration, and a sequence of them applied in order. *)
Record Registration : Type := {
  reg_name : string;
  reg_fn : Command;
  reg_autocomplete : option AutocompleteProvider
}.

Definition register (w : Shell) (r : Registration) : Shell :=
  command (reg_name r) (reg_fn r) (reg_autocomplete r) w.

Definition register_all (rs : list Registration) (w : Shell) : Shell :=
  foldl register w rs.

(* ===================================================================== *)
(** ** The collaborators the module does not implement

    local-echo answers [read] and [readChar] with what the user typed (or
    rejects, on [abortRead]); [string-to-argv] and [minimist] are ordinary
    JavaScript functions, which return or throw. [echo_read tr prompt] is
    what [read(prompt)] settles to after the calls [tr]. *)

Record Collaborators : Type := {
  echo_read : list Event → string → Promise string;
  echo_readChar : list Event → string → Promise string;
  stringToArgv : string → Promise (list string);
  minimist : list string → Promise Parsed
}.

Section Semantics.

Variable E : Collaborators.

Definition settled (p : Promise string) : Reply :=
  match p with Fulfilled s => Text s | Rejected e => Threw e end.

(** *** [XtermJSShell]: the I/O methods *)

Definition XtermJSShell_readChar (msg : string) (w : Shell) : Shell * Reply :=
  (log (EchoReadChar msg) w, settled (echo_readChar E (trace w) msg)).

Definition XtermJSShell_readLine (msg : string) (w : Shell) : Shell * Reply :=
  (log (EchoRead msg) w, settled (echo_read E (trace w) msg)).

Definition XtermJSShell_abortRead (reason : string) (w : Shell) : Shell * Reply :=
  (log (EchoAbortRead reason) w, Undefined).

Definition XtermJSShell_print (msg : string) (w : Shell) : Shell * Reply :=
  (log (TermWrite msg) w, Undefined).

Definition XtermJSShell_printLine (msg : string) (w : Shell) : Shell * Reply :=
  (log (EchoPrintln msg) w, Undefined).

Definition XtermJSShell_printList (items : list string) (w : Shell)
  : Shell * Reply :=
  (log (EchoPrintWide items) w, Undefined).

Definition XtermJSShell_clear (w : Shell) : Shell * Reply :=
  (log TermClear w, Undefined).

(** *** [SubShell] *)

(** [new SubShell(this)]: the new object is the last of the heap. *)
Definition SubShell_new (w : Shell) : Shell :=
  set_subshells (subshells w ++ [false]) w.

Definition is_destroyed (shell : nat) (w : Shell) : bool :=
  match subshells w !! shell with Some true => true | _ => false end.

(** [checkDestroyed() { if (this.destroyed) throw new Error('Terminal
    destroyed') }] *)
Definition checkDestroyed (shell : nat) (w : Shell) : Promise unit :=
  if is_destroyed shell w then Rejected (Error "Error" "Terminal destroyed")
  else Fulfilled tt.

(** [destroy() { this.destroyed = true }] *)
Definition destroy (shell : nat) (w : Shell) : Shell :=
  set_subshells (<[shell := true]> (subshells w)) w.

Definition SubShell_readChar (shell : nat) (msg : string) (w : Shell)
  : Shell * Reply :=
  match checkDestroyed shell w with
  | Rejected e => (w, Threw e)
  | Fulfilled _ => XtermJSShell_readChar msg w
  end.

Definition SubShell_readLine (shell : nat) (msg : string) (w : Shell)
  : Shell * Reply :=
  match checkDestroyed shell w with
  | Rejected e => (w, Threw e)
  | Fulfilled _ => XtermJSShell_readLine msg w
  end.

Definition SubShell_abortRead (shell : nat) (reason : string) (w : Shell)
  : Shell * Reply :=
  match checkDestroyed shell w with
  | Rejected e => (w, Threw e)
  | Fulfilled _ => XtermJSShell_abortRead reason w
  end.

(** [print], [printLine], [printList] and [clear] do not return what the
    session's method returned. *)
Definition SubShell_print (shell : nat) (msg : string) (w : Shell)
  : Shell * Reply :=
  match checkDestroyed shell w with
  | Rejected e => (w, Threw e)
  | Fulfilled _ => ((XtermJSShell_print msg w).1, Undefined)
  end.

Definition SubShell_printLine (shell : nat) (msg : string) (w : Shell)
  : Shell * Reply :=
  match checkDestroyed shell w with
  | Rejected e => (w, Threw e)
  | Fulfilled _ => ((XtermJSShell_printLine msg w).1, Undefined)
  end.

Definition SubShell_printList (shell : nat) (items : list string) (w : Shell)
  : Shell * Reply :=
  match checkDestroyed shell w with
  | Rejected e => (w, Threw e)
  | Fulfilled _ => ((XtermJSShell_printList items w).1, Undefined)
  end.

Definition SubShell_clear (shell : nat) (w : Shell) : Shell * Reply :=
  match checkDestroyed shell w with
  | Rejected e => (w, Threw e)
  | Fulfilled _ => ((XtermJSShell_clear w).1, Undefined)
  end.

(** [async *readStream()]: calling it only makes the generator object;
    nothing of its body runs before the first [next()]. *)
Definition readStream (shell : nat) (w : Shell) : Shell * Reply :=
  (set_streams
     (streams w ++
        [{| owner := shell; phase := SuspendedStart; buffer := [];
            requests := [] |}]) w,
   Generator (length (streams w))).

(** A method call on SubShell number [shell]. A number that names no
    object stands for a call on [undefined]. *)
Definition SubShell_call (shell : nat) (m : Method) (w : Shell)
  : Shell * Reply :=
  match subshells w !! shell with
  | None => (w, Threw (TypeError "Cannot read properties of undefined"))
  | Some _ =>
      match m with
      | M_readStream => readStream shell w
      | M_readChar msg => SubShell_readChar shell msg w
      | M_readLine msg => SubShell_readLine shell msg w
      | M_abortRead reason => SubShell_abortRead shell reason w
      | M_print msg => SubShell_print shell msg w
      | M_printLine msg => SubShell_printLine shell msg w
      | M_printList items => SubShell_printList shell items w
      | M_clear => SubShell_clear shell w
      | M_destroy => (destroy shell w, Undefined)
      end
  end.

(** *** The generator of [readStream]

    [new EventIterator(listen, remove)] runs [listen] when iteration
    starts and [remove] when the consumer of the iterator returns; between
    the two, every [push] either settles the pending [next()] or is
    queued. The source's [listen] takes only [push], so the iterator
    never ends by itself. *)

(** The second callback: [dataListener.dispose(); this.shell.attach()]. *)
Definition remove (s : nat) (w : Shell) : Shell :=
  let w1 := log (ListenerDispose s) w in
  attach (set_listeners (filter (λ x, x ≠ s) (listeners w1)) w1).

(** The iterator is returned and the generator is complete. *)
Definition finish (s : nat) (st : Stream) (w : Shell) : Shell :=
  put_stream s (set_requests [] (set_phase Completed st)) (remove s w).

(** The loop body: [if (this.destroyed) break; yield data]. *)
Definition resume (s : nat) (st : Stream) (data : string) (w : Shell)
  : Shell * Reply :=
  if is_destroyed (owner st) w then (finish s st w, IterDone)
  else (put_stream s (set_phase SuspendedYield st) w, IterValue data).

(** The loop head: the next item of the EventIterator. *)
Definition pull (s : nat) (st : Stream) (w : Shell) : Shell * Reply :=
  match buffer st with
  | [] => (put_stream s (set_phase Awaiting st) w, Unsettled)
  | data :: rest => resume s (set_buffer rest st) data w
  end.

(** The first callback: [dataListener = this.shell.term.onData(push);
    this.shell.detach()]. *)
Definition listen (s : nat) (w : Shell) : Shell :=
  let w1 := log (TermOnData s) w in
  detach (set_listeners (listeners w1 ++ [s]) w1).

Definition gen_next (s : nat) (w : Shell) : Shell * Reply :=
  match streams w !! s with
  | None => (w, Threw (TypeError "Cannot read properties of undefined"))
  | Some st =>
      match phase st with
      | SuspendedStart => pull s st (listen s w)
      | Awaiting =>
          (put_stream s (set_requests (requests st ++ [ReqNext]) st) w,
           Unsettled)
      | SuspendedYield => pull s st w
      | Completed => (w, IterDone)
      end
  end.

Definition gen_return (s : nat) (w : Shell) : Shell * Reply :=
  match streams w !! s with
  | None => (w, Threw (TypeError "Cannot read properties of undefined"))
  | Some st =>
      match phase st with
      | SuspendedStart => (put_stream s (set_phase Completed st) w, IterDone)
      | Awaiting =>
          (put_stream s (set_requests (requests st ++ [ReqReturn]) st) w,
           Unsettled)
      | SuspendedYield => (finish s st w, IterDone)
      | Completed => (w, IterDone)
      end
  end.

(** Requests still queued on a generator that has completed. *)
Fixpoint settle_all (s : nat) (rs : list Request) (w : Shell) : Shell :=
  match rs with
  | [] => w
  | _ :: rs' => settle_all s rs' (log (Delivered s IterDone) w)
  end.

(** The generator stands at [yield] and takes its queued requests. *)
Fixpoint serve (rs : list Request) (s : nat) (st : Stream) (w : Shell)
  : Shell :=
  match rs with
  | [] => put_stream s (set_requests [] st) w
  | ReqReturn :: rs' =>
      settle_all s rs' (log (Delivered s IterDone) (finish s st w))
  | ReqNext :: rs' =>
      match buffer st with
      | [] => put_stream s (set_requests rs' (set_phase Awaiting st)) w
      | data :: rest =>
          if is_destroyed (owner st) w
          then settle_all s rs'
                 (log (Delivered s IterDone)
                    (finish s (set_buffer rest st) w))
          else serve rs' s (set_buffer rest st)
                 (log (Delivered s (IterValue data)) w)
      end
  end.

(** [push(data)] of the EventIterator of generator [s]. *)
Definition push (data : string) (w : Shell) (s : nat) : Shell :=
  match streams w !! s with
  | None => w
  | Some st =>
      match phase st with
      | Awaiting =>
          if is_destroyed (owner st) w
          then settle_all s (requests st)
                 (log (Delivered s IterDone) (finish s st w))
          else serve (requests st) s (set_phase SuspendedYield st)
                 (log (Delivered s (IterValue data)) w)
      | SuspendedYield => put_stream s (set_buffer (buffer st ++ [data]) st) w
      | SuspendedStart | Completed => w
      end
  end.

(** The terminal emits [data]: every listener registered at that moment
    is called, in the order of subscription. *)
Definition term_data (data : string) (w : Shell) : Shell :=
  foldl (push data) w (listeners w).

Definition do_action (a : Action) (w : Shell) : Shell * Reply :=
  match a with
  | ACall shell m => SubShell_call shell m w
  | ANext s => gen_next s w
  | AReturn s => gen_return s w
  | AData data => (term_data data w, Undefined)
  end.

Fixpoint exec {R : Type} (p : Script R) (w : Shell) : Shell * Promise R :=
  match p with
  | Return r => (w, Fulfilled r)
  | Throw e => (w, Rejected e)
  | Do a k => let '(w', r) := do_action a w in exec (k r) w'
  end.

(** *** [run] and [repl] *)

(** [for await (let data of result) { shell.print(data) }]; the promise
    that [shell.print] returns is dropped. *)
Fixpoint drain (shell : nat) (g : Gen) (w : Shell) : Shell * Promise unit :=
  match g with
  | GDone => (w, Fulfilled tt)
  | GThrow e => (w, Rejected e)
  | GYield data rest => drain shell rest (SubShell_print shell data w).1
  | GDo a k => let '(w', r) := do_action a w in drain shell (k r) w'
  end.

(** [!command]: [undefined] (an empty [argv]) and the empty string. *)
Definition falsy (command : option string) : bool :=
  match command with
  | None => true
  | Some c => bool_decide (c = "")
  end.

(** [async run(command, args, flags)] *)
Definition run (command : option string) (args : list string)
    (flags : Parsed) (w : Shell) : Shell * Promise unit :=
  match command with
  | None => (w, Fulfilled tt)
  | Some name =>
      if falsy command then (w, Fulfilled tt)
      else if negb (Map_has name (commands w))
      then (w, Rejected (TypeError (ERROR_NOT_FOUND name)))
      else
        match Map_get name (commands w) with
        | None => (w, Rejected (TypeError "undefined is not an object"))
        | Some entry =>
            let shell := length (subshells w) in
            let w1 := log (HandlerCall name shell args flags) (SubShell_new w) in
            match exec (fn entry shell args flags) w1 with
            | (w2, Rejected e) => (w2, Rejected e)
            | (w2, Fulfilled Nullish) =>
                (w2, Rejected
                       (TypeError "Cannot read properties of undefined"))
            | (w2, Fulfilled (Thenable p)) =>
                match exec p w2 with
                | (w3, Rejected e) => (w3, Rejected e)
                | (w3, Fulfilled _) => (destroy shell w3, Fulfilled tt)
                end
            | (w2, Fulfilled (Iterator g)) =>
                match drain shell g w2 with
                | (w3, Rejected e) => (w3, Rejected e)
                | (w3, Fulfilled _) => (destroy shell w3, Fulfilled tt)
                end
            | (w2, Fulfilled Plain) => (destroy shell w2, Fulfilled tt)
            end
        end
  end.

(** How one pass of [repl] ends: it calls [this.repl()] again, or its
    promise rejects before that call. *)
Inductive Pass : Type :=
| Again
| Uncaught (e : Thrown).

(** One pass of [async repl()]. The [catch] block calls
    [console.error(e)] and then reads [e.message]: on [null] and
    [undefined] that read throws inside the block, so the pass rejects; a
    value without the property gives [println(undefined)]. *)
Definition repl_pass (w : Shell) : Shell * Pass :=
  match prompt w with
  | Rejected e => (w, Uncaught e)
  | Fulfilled prompt =>
      let w1 := log (EchoRead prompt) w in
      match echo_read E (trace w) prompt with
      | Rejected e => (w1, Uncaught e)
      | Fulfilled line =>
          match stringToArgv E line with
          | Rejected e => (w1, Uncaught e)
          | Fulfilled argv =>
              let command := head argv in
              match minimist E (tail argv) with
              | Rejected e => (w1, Uncaught e)
              | Fulfilled parsed =>
                  let raw_args := positional parsed in
                  match run command raw_args parsed w1 with
                  | (w2, Fulfilled _) => (w2, Again)
                  | (w2, Rejected e) =>
                      let w3 := log (ConsoleError e) w2 in
                      match e with
                      | Err e =>
                          ((XtermJSShell_printLine (message e) w3).1, Again)
                      | NullValue => (w3, Uncaught no_properties)
                      | OtherValue _ => (log EchoPrintlnUndefined w3, Again)
                      end
                  end
              end
          end
      end
  end.

(** The first [n] passes of the loop; [Some e] when one of them ended the
    loop with the uncaught error [e]. *)
Fixpoint repl (n : nat) (w : Shell) : Shell * option Thrown :=
  match n with
  | 0 => (w, None)
  | S n' =>
      match repl_pass w with
      | (w', Again) => repl n' w'
      | (w', Uncaught e) => (w', Some e)
      end
  end.

(** The I/O methods of the session, called directly. *)
Definition XtermJSShell_call (m : Method) (w : Shell) : Shell * Reply :=
  match m with
  | M_readChar msg => XtermJSShell_readChar msg w
  | M_readLine msg => XtermJSShell_readLine msg w
  | M_abortRead reason => XtermJSShell_abortRead reason w
  | M_print msg => XtermJSShell_print msg w
  | M_printLine msg => XtermJSShell_printLine msg w
  | M_printList items => XtermJSShell_printList items w
  | M_clear => XtermJSShell_clear w
  | M_readStream | M_destroy =>
      (w, Threw (TypeError "shell.method is not a function"))
  end.

(** What can happen to a session: the host application calls a method of
    it or replaces its prompt, the loop makes a pass, a handler (running,
    or finished but still holding a context or a stream) acts, the
    terminal emits input. *)
Inductive Activity : Type :=
| Detach
| Attach
| Register (r : Registration)
| Call (m : Method)
| SetPrompt (p : Promise string)
| Act (a : Action)
| Run (command : option string) (args : list string) (flags : Parsed)
| ReplPass.

Definition perform (w : Shell) (a : Activity) : Shell :=
  match a with
  | Detach => detach w
  | Attach => attach w
  | Register r => register w r
  | Call m => (XtermJSShell_call m w).1
  | SetPrompt p => set_prompt p w
  | Act a => (do_action a w).1
  | Run command args flags => (run command args flags w).1
  | ReplPass => (repl_pass w).1
  end.

Definition perform_all (acts : list Activity) (w : Shell) : Shell :=
  foldl perform w acts.

End Semantics.

(* ===================================================================== *)
(** ** Vocabulary of the statements *)

(** The state of the echo engine after the calls of a trace, when it was
    in state [b] (attached or not) before: [None] as soon as it receives
    [detach()] while detached or [attach()] while attached. *)
Fixpoint echo_after (b : bool) (tr : list Event) : option bool :=
  match tr with
  | [] => Some b
  | EchoDetach :: tr' => if b then echo_after false tr' else None
  | EchoAttach :: tr' => if b then None else echo_after true tr'
  | _ :: tr' => echo_after b tr'
  end.



Definition count_if (f : Event → bool) (tr : list Event) : nat :=
  length (filter (λ e, f e = true) tr).


(** The echo engine has seen only real toggles, and the session's flag is
    the engine's state. *)
Definition echo_inv (w : Shell) : Prop :=
  echo_after true (trace w) = Some (attached w).




(** A change of the heap of generators that writes no unstarted generator
    other than a new, empty one. *)
Definition streams_ok (l l' : list Stream) : Prop :=
  ∀ s st, l' !! s = Some st → phase st = SuspendedStart →
          buffer st = [] ∨ l !! s = Some st.

(** Events that are neither a toggle of the echo engine nor a
    subscription or disposal of a raw stream. *)
Definition quiet (e : Event) : bool :=
  match e with
  | EchoDetach | EchoAttach | TermOnData _ | ListenerDispose _ => false
  | _ => true
  end.

(** The shapes of a state change that creates and destroys no context:
    nothing is logged, or one quiet event, or the second callback of a raw
    stream runs. *)
Inductive basic : Shell → Shell → Prop :=
| basic_same w w' :
    trace w' = trace w → attached w' = attached w →
    listeners w' = listeners w → streams_ok (streams w) (streams w') →
    subshells w' = subshells w → basic w w'
| basic_log e w w' :
    quiet e = true → trace w' = trace w ++ [e] →
    attached w' = attached w → listeners w' = listeners w →
    streams_ok (streams w) (streams w') →
    subshells w' = subshells w → basic w w'
| basic_remove s w w' :
    trace w' = trace (remove s w) → attached w' = attached (remove s w) →
    listeners w' = listeners (remove s w) →
    streams_ok (streams w) (streams w') →
    subshells w' = subshells w → basic w w'.

Definition calm : Shell → Shell → Prop := rtc basic.

(** One action: calm changes, possibly after the first callback of one
    raw stream; or the creation or the destruction of a context. *)
Inductive moves : Shell → Shell → Prop :=
| moves_calm w w' : calm w w' → moves w w'
| moves_open s w w' : calm (listen s w) w' → moves w w'
| moves_new w : moves w (SubShell_new w)
| moves_destroy c w : moves w (destroy c w).

Definition internal : Shell → Shell → Prop := rtc moves.

(** The same, and direct calls of the session's [detach] and [attach]. *)
Inductive toggles : Shell → Shell → Prop :=
| toggles_moves w w' : moves w w' → toggles w w'
| toggles_detach w : toggles w (detach w)
| toggles_attach w : toggles w (attach w).

(** Activities other than a direct [detach()] or [attach()]. *)
Definition indirect (a : Activity) : bool :=
  match a with Detach | Attach => false | _ => true end.

(** No script of the handler calls [destroy] on context [c]. *)
Fixpoint keeps {R : Type} (leaf : R → Prop) (c : nat) (p : Script R) : Prop :=
  match p with
  | Return r => leaf r
  | Throw _ => True
  | Do a k => a ≠ ACall c M_destroy ∧ ∀ r, keeps leaf c (k r)
  end.

Fixpoint keeps_gen (c : nat) (g : Gen) : Prop :=
  match g with
  | GDone | GThrow _ => True
  | GYield _ rest => keeps_gen c rest
  | GDo a k => a ≠ ACall c M_destroy ∧ ∀ r, keeps_gen c (k r)
  end.

Definition keeps_result (c : nat) (r : Result) : Prop :=
  match r with
  | Thenable p => keeps (λ _, True) c p
  | Iterator g => keeps_gen c g
  | Nullish | Plain => True
  end.

Definition keeps_handler (c : nat) (p : Script Result) : Prop :=
  keeps (keeps_result c) c p.

(** The script that does what generator [g] does and, where [g] yields a
    chunk, prints it on context [shell] itself. *)
Fixpoint inline_prints (shell : nat) (g : Gen) : Script unit :=
  match g with
  | GDone => Return tt
  | GThrow e => Throw e
  | GYield data rest =>
      Do (ACall shell (M_print data)) (λ _, inline_prints shell rest)
  | GDo a k => Do a (λ r, inline_prints shell (k r))
  end.

(** A generator that yields the chunks of a list and ends. *)
Fixpoint yields (chunks : list string) : Gen :=
  match chunks with
  | [] => GDone
  | data :: rest => GYield data (yields rest)
  end.

(* ===================================================================== *)
(** ** Sessions to run the statements on *)

Definition is_EchoRead (e : Event) : bool :=
  match e with EchoRead _ => true | _ => false end.

(** A user who types the given lines, one at each [read], and aborts the
    read after the last. *)
Definition typed (lines : list string) (tr : list Event) (prompt : string)
  : Promise string :=
  match lines !! count_if is_EchoRead tr with
  | Some line => Fulfilled line
  | None => Rejected (Error "Error" "aborted")
  end.

(** Collaborators for lines without quotes and without flags: the
    tokenizer splits at white space, the parser finds positional
    arguments only. *)
Definition plain_host (lines : list string) : Collaborators :=
  {| echo_read := typed lines;
     echo_readChar := λ _ _, Fulfilled "y";
     stringToArgv := λ line, Fulfilled (String.words line);
     minimist := λ argv, Fulfilled {| positional := argv; named := [] |} |}.

Definition no_flags : Parsed := {| positional := []; named := [] |}.

Definition boom : exn := Error "Error" "boom".

(** [shell => { throw new Error('boom') }] *)
Definition fail_sync : Command := λ _ _ _, Throw boom.

(** [async shell => { throw new Error('boom') }] *)
Definition fail_async : Command := λ _ _ _, Return (Thenable (Throw boom)).




(** [async function* () { yield 'a'; yield 'b'; yield 'c' }] *)
Definition gen_abc : Command :=
  λ _ _ _, Return (Iterator (yields ["a"; "b"; "c"])).

(** [async shell => { const keys = shell.readStream(); await keys.next() }]:
    one key is read and the stream is left open; the key "x" arrives
    while the handler waits. *)
Definition read_key : Command :=
  λ shell _ _,
    Return (Thenable
      (Do (ACall shell M_readStream) (λ r,
         match r with
         | Generator s =>
             Do (ANext s) (λ _, Do (AData "x") (λ _, Return tt))
         | _ => Return tt
         end))).


Definition echo_provider : AutocompleteProvider :=
  λ index args, if (index =? 0)%Z then ["on"; "off"] else args.

Definition reg (name : string) (f : Command) : Registration :=
  {| reg_name := name; reg_fn := f; reg_autocomplete := None |}.

(** A session with one context, which is destroyed. *)
Definition stale_session : Shell := destroy 0 (SubShell_new XtermJSShell_new).

(* ===================================================================== *)
(** ** Vocabulary of further statements *)

(** A generator whose body runs between the two callbacks of its
    EventIterator: it waits for an item or stands at [yield]. *)
Definition active (p : Phase) : bool :=
  match p with
  | Awaiting | SuspendedYield => true
  | SuspendedStart | Completed => false
  end.

(** The listeners of the terminal are the generators whose body runs,
    each once. *)
Definition listen_inv (w : Shell) : Prop :=
  NoDup (listeners w)
  ∧ ∀ s, s ∈ listeners w
         ↔ ∃ st, streams w !! s = Some st ∧ active (phase st) = true.

(** The same for every generator but [s], whose record is about to be
    written. *)
Definition others_ok (s : nat) (w : Shell) : Prop :=
  NoDup (listeners w)
  ∧ ∀ s0, s0 ≠ s →
      (s0 ∈ listeners w
       ↔ ∃ st, streams w !! s0 = Some st ∧ active (phase st) = true).


(** A list of names with one more, put last unless it is there. *)
Definition add_name (names : list string) (name : string) : list string :=
  if decide (name ∈ names) then names else names ++ [name].

(** [run] reaches the handler: the command is set and bound. *)
Definition dispatches (command : option string) (w : Shell) : bool :=
  match command with
  | None => false
  | Some name => negb (bool_decide (name = "")) && Map_has name (commands w)
  end.

(** [n] calls of [next()] on generator [s], one after the other, and what
    they answer. *)
Fixpoint pulls (n : nat) (s : nat) (w : Shell) : Shell * list Reply :=
  match n with
  | 0 => (w, [])
  | S n' =>
      let '(w1, r) := gen_next s w in
      let '(w2, rs) := pulls n' s w1 in
      (w2, r :: rs)
  end.

(** The terminal emits the chunks of a list, in order. *)
Definition emit_all (chunks : list string) (w : Shell) : Shell :=
  foldl (λ w data, term_data data w) w chunks.


(** [shell => { shell.print('hi') }]: a function that returns nothing. *)
Definition say_hi : Command :=
  λ shell _ _, Do (ACall shell (M_print "hi")) (λ _, Return Nullish).





(* ===================================================================== *)
(** * Properties *)

(** ** The map *)

Lemma Map_get_set_eq {V : Type} (k : string) (v : V) (m : list (string * V)) :
  Map_get k (Map_set k v m) = Some v.
Proof.
  induction m as [|[k' v'] m IH]; simpl.
  - by rewrite decide_True.
  - destruct (decide (k = k')) as [->|Hne]; simpl.
    + by rewrite decide_True.
    + by rewrite decide_False.
Qed.

Lemma Map_get_set_ne {V : Type} (k k' : string) (v : V) (m : list (string * V)) :
  k ≠ k' → Map_get k' (Map_set k v m) = Map_get k' m.
Proof.
  intros Hne. induction m as [|[k0 v0] m IH]; simpl.
  - rewrite decide_False; [done | congruence].
  - destruct (decide (k = k0)) as [->|Hk]; simpl.
    + rewrite !decide_False; [done | congruence | congruence].
    + destruct (decide (k' = k0)); [done | apply IH].
Qed.

Lemma Map_has_keys {V : Type} (k : string) (m : list (string * V)) :
  Map_has k m = true ↔ k ∈ Map_keys m.
Proof.
  unfold Map_has, Map_keys. induction m as [|[k' v'] m IH]; simpl.
  - split; [done | by intros ?%elem_of_nil].
  - rewrite elem_of_cons. destruct (decide (k = k')) as [->|Hne].
    + split; [by left | done].
    + rewrite IH. split; [by right | by intros [?|?]].
Qed.

Lemma Map_has_get {V : Type} (k : string) (m : list (string * V)) :
  Map_has k m = true ↔ is_Some (Map_get k m).
Proof.
  unfold Map_has. destruct (Map_get k m) as [v|]; split; intros H.
  - by exists v.
  - done.
  - done.
  - by destruct H.
Qed.

(** Keys stay distinct: [set] never duplicates one. *)
Lemma Map_keys_set_NoDup {V : Type} (k : string) (v : V) (m : list (string * V)) :
  NoDup (Map_keys m) → NoDup (Map_keys (Map_set k v m)).
Proof.
  unfold Map_keys. induction m as [|[k' v'] m IH]; simpl.
  - intros _. apply NoDup_singleton.
  - rewrite NoDup_cons. intros [Hnotin Hnd].
    destruct (decide (k = k')) as [->|Hne]; simpl.
    + by apply NoDup_cons.
    + apply NoDup_cons. split; [|by apply IH].
      intros Hin. apply Hnotin.
      apply (Map_has_keys k' m). apply (Map_has_keys k' (Map_set k v m)) in Hin.
      unfold Map_has in *. rewrite Map_get_set_ne in Hin; [done | congruence].
Qed.

(** ** The registry *)

Lemma commands_command name f ac w :
  commands (command name f ac w) =
  Map_set name {| command_name := name; fn := f; autocomplete := ac |}
    (commands w).
Proof. unfold command. by destruct (Map_has name (commands w)). Qed.

Lemma trace_command name f ac w :
  trace (command name f ac w) =
  trace w ++
    (if Map_has name (commands w)
     then [ConsoleWarn (ERROR_ALREADY_REGISTERED name)] else []).
Proof.
  unfold command. destruct (Map_has name (commands w)); simpl; [done|].
  by rewrite app_nil_r.
Qed.

Lemma register_all_app rs1 rs2 w :
  register_all (rs1 ++ rs2) w = register_all rs2 (register_all rs1 w).
Proof. unfold register_all. by rewrite foldl_app. Qed.

Lemma register_all_other name rs w :
  (∀ r, r ∈ rs → reg_name r ≠ name) →
  Map_get name (commands (register_all rs w)) = Map_get name (commands w).
Proof.
  revert w. induction rs as [|r rs IH]; intros w Hrs; [done|].
  change (register_all (r :: rs) w) with (register_all rs (register w r)).
  rewrite IH.
  - unfold register. rewrite commands_command.
    apply Map_get_set_ne. apply Hrs. by left.
  - intros r' Hr'. apply Hrs. by right.
Qed.

(** C5. After any sequence of registrations, a name that was registered is
    bound ([has] is true), and [get] gives the entry of the last
    registration under that name; registering a name that is already
    bound logs the warning "Command Already Registered: name" on the
    console and does nothing else differently: [command] always returns
    the session, with the new binding and every other field as before. *)
Theorem command_last_write_wins
    (w : Shell) (before after : list Registration) (r : Registration)
    (Hafter : Forall (λ r', reg_name r' ≠ reg_name r) after) :
  let w1 := register_all before w in
  let w2 := register_all (before ++ r :: after) w in
  let entry := {| command_name := reg_name r; fn := reg_fn r;
                  autocomplete := reg_autocomplete r |} in
  Map_has (reg_name r) (commands (register w1 r)) = true
  ∧ Map_get (reg_name r) (commands (register w1 r)) = Some entry
  ∧ Map_has (reg_name r) (commands w2) = true
  ∧ Map_get (reg_name r) (commands w2) = Some entry
  ∧ trace (register w1 r) =
      trace w1 ++
        (if Map_has (reg_name r) (commands w1)
         then [ConsoleWarn (ERROR_ALREADY_REGISTERED (reg_name r))] else [])
  ∧ attached (register w1 r) = attached w1
  ∧ subshells (register w1 r) = subshells w1
  ∧ streams (register w1 r) = streams w1
  ∧ listeners (register w1 r) = listeners w1
  ∧ prompt (register w1 r) = prompt w1.
Proof.
  intros w1 w2 entry.
  assert (Hnow : Map_get (reg_name r) (commands (register w1 r)) = Some entry).
  { unfold register. rewrite commands_command. apply Map_get_set_eq. }
  assert (Hlater : Map_get (reg_name r) (commands w2) = Some entry).
  { unfold w2. rewrite register_all_app.
    change (register_all (r :: after) (register_all before w))
      with (register_all after (register w1 r)).
    rewrite register_all_other; [done|]. by apply Forall_forall. }
  split_and!; try done.
  - apply Map_has_get. by rewrite Hnow.
  - apply Map_has_get. by rewrite Hlater.
  - apply trace_command.
  - unfold register, command. by destruct (Map_has _ _).
  - unfold register, command. by destruct (Map_has _ _).
  - unfold register, command. by destruct (Map_has _ _).
  - unfold register, command. by destruct (Map_has _ _).
  - unfold register, command. by destruct (Map_has _ _).
Qed.

(** ** Auto-completion *)

Lemma register_all_NoDup rs w :
  NoDup (Map_keys (commands w)) →
  NoDup (Map_keys (commands (register_all rs w))).
Proof.
  revert w. induction rs as [|r rs IH]; intros w Hw; [done|].
  change (register_all (r :: rs) w) with (register_all rs (register w r)).
  apply IH. unfold register. rewrite commands_command.
  by apply Map_keys_set_NoDup.
Qed.

(** C7. At index 0 the resolver returns the keys of the registry, whatever
    the tokens are: a name is in the answer exactly when it is bound, and
    in a registry filled by registrations no name is there twice. *)
Theorem autoComplete_index0_all_names
    (tokens : list string) (w : Shell) (rs : list Registration) :
  autoCompleteCommands 0 tokens w = Map_keys (commands w)
  ∧ (∀ name, name ∈ autoCompleteCommands 0 tokens w
             ↔ Map_has name (commands w) = true)
  ∧ NoDup (autoCompleteCommands 0 tokens (register_all rs XtermJSShell_new)).
Proof.
  split_and!; [done| |].
  - intros name. symmetry. apply Map_has_keys.
  - apply register_all_NoDup. apply NoDup_nil_2.
Qed.

(** C8. At an index [k ≥ 1], on tokens [cmd :: args]: a command bound with
    a provider [P] answers [P (k - 1) args], unchanged; a command bound
    without a provider, and an unbound one, answer the empty list. *)
Theorem autoComplete_args_delegates
    (k : Z) (cmd : string) (args : list string) (w : Shell)
    (Hk : (1 ≤ k)%Z) :
  autoCompleteCommands k (cmd :: args) w =
  match Map_get cmd (commands w) with
  | Some entry =>
      match autocomplete entry with
      | Some P => P (k - 1)%Z args
      | None => []
      end
  | None => []
  end.
Proof.
  unfold autoCompleteCommands, Map_has. simpl.
  destruct (Z.eqb_spec k 0) as [->|_]; [lia|].
  by destruct (Map_get cmd (commands w)).
Qed.

(* ===================================================================== *)
(** ** Every operation is a sequence of basic changes *)

Section Properties.

Variable E : Collaborators.

Lemma streams_ok_refl l : streams_ok l l.
Proof. intros s st H _. by right. Qed.

Lemma streams_ok_put l s st :
  phase st ≠ SuspendedStart → streams_ok l (<[s := st]> l).
Proof.
  intros Hph s' st' Hs' Hst'.
  apply list_lookup_insert_Some in Hs' as [(-> & -> & _)|[_ Hs']]; [done|].
  by right.
Qed.

Lemma streams_ok_app l st : buffer st = [] → streams_ok l (l ++ [st]).
Proof.
  intros Hb s st' Hs _.
  apply lookup_app_Some in Hs as [Hs|[_ Hs]]; [by right|].
  apply list_lookup_singleton_Some in Hs as [_ <-]. by left.
Qed.

Ltac stream_side :=
  simpl;
  first [ apply streams_ok_refl
        | apply streams_ok_app; done
        | apply streams_ok_put; simpl; congruence ].

Lemma calm_same w w' :
  trace w' = trace w → attached w' = attached w →
  listeners w' = listeners w → streams_ok (streams w) (streams w') →
  subshells w' = subshells w → calm w w'.
Proof. intros. by apply rtc_once, basic_same. Qed.

Ltac same := apply calm_same; [done | done | done | stream_side | done].

Lemma calm_log e w : quiet e = true → calm w (log e w).
Proof. intros. apply rtc_once, (basic_log e); try done. apply streams_ok_refl. Qed.

Lemma calm_then_same w w1 w' :
  calm w w1 → trace w' = trace w1 → attached w' = attached w1 →
  listeners w' = listeners w1 → streams_ok (streams w1) (streams w') →
  subshells w' = subshells w1 → calm w w'.
Proof. intros H ?????. eapply rtc_r; [exact H | by apply basic_same]. Qed.

Lemma calm_then_log e w w1 :
  calm w w1 → quiet e = true → calm w (log e w1).
Proof.
  intros H ?. eapply rtc_r; [exact H | apply (basic_log e); try done].
  apply streams_ok_refl.
Qed.

Lemma calm_remove s w : calm w (remove s w).
Proof.
  apply rtc_once, (basic_remove s); try done.
  - unfold remove, attach. simpl. destruct (attached w); apply streams_ok_refl.
  - unfold remove, attach. simpl. by destruct (attached w).
Qed.

Lemma calm_trans w1 w2 w3 : calm w1 w2 → calm w2 w3 → calm w1 w3.
Proof. apply rtc_trans. Qed.

Lemma calm_finish s st w : calm w (finish s st w).
Proof.
  unfold finish. eapply calm_then_same; [apply calm_remove|done..| |done].
  stream_side.
Qed.

Lemma calm_resume s st data w : calm w (resume s st data w).1.
Proof.
  unfold resume. destruct (is_destroyed (owner st) w); simpl.
  - apply calm_finish.
  - same.
Qed.

Lemma calm_pull s st w : calm w (pull s st w).1.
Proof.
  unfold pull. destruct (buffer st); [simpl; same | apply calm_resume].
Qed.

Lemma calm_gen_return s w : calm w (gen_return s w).1.
Proof.
  unfold gen_return. destruct (streams w !! s) as [st|]; [|simpl; same].
  destruct (phase st) eqn:Hph; simpl; [same | same | apply calm_finish | same].
Qed.

Lemma moves_gen_next s w : moves w (gen_next s w).1.
Proof.
  unfold gen_next. destruct (streams w !! s) as [st|];
    [|apply moves_calm; simpl; same].
  destruct (phase st) eqn:Hph; simpl.
  - apply (moves_open s), calm_pull.
  - apply moves_calm. same.
  - apply moves_calm, calm_pull.
  - apply moves_calm. same.
Qed.

Lemma calm_settle_all s rs w : calm w (settle_all s rs w).
Proof.
  revert w. induction rs as [|r rs IH]; intros w; simpl; [apply rtc_refl|].
  eapply calm_trans; [by apply (calm_log (Delivered s IterDone))|apply IH].
Qed.

Lemma calm_serve rs s st w :
  phase st ≠ SuspendedStart → calm w (serve rs s st w).
Proof.
  revert st w. induction rs as [|[] rs IH]; intros st w Hph; simpl.
  - same.
  - destruct (buffer st) as [|data rest]; [same|].
    destruct (is_destroyed (owner st) w).
    + eapply calm_trans; [|apply calm_settle_all].
      by apply calm_then_log; [apply calm_finish|].
    + eapply calm_trans; [|by apply IH].
      by apply (calm_log (Delivered s (IterValue data))).
  - eapply calm_trans; [|apply calm_settle_all].
    by apply calm_then_log; [apply calm_finish|].
Qed.

Lemma calm_push data w s : calm w (push data w s).
Proof.
  unfold push. destruct (streams w !! s) as [st|]; [|apply rtc_refl].
  destruct (phase st) eqn:Hph; try apply rtc_refl.
  - destruct (is_destroyed (owner st) w).
    + eapply calm_trans; [|apply calm_settle_all].
      by apply calm_then_log; [apply calm_finish|].
    + eapply calm_trans; [|by apply calm_serve].
      by apply (calm_log (Delivered s (IterValue data))).
  - same.
Qed.

Lemma calm_foldl_push data l w : calm w (foldl (push data) w l).
Proof.
  revert w. induction l as [|s l IH]; intros w; simpl; [apply rtc_refl|].
  eapply calm_trans; [apply calm_push | apply IH].
Qed.

Lemma calm_SubShell_print shell msg w : calm w (SubShell_print shell msg w).1.
Proof.
  unfold SubShell_print. destruct (checkDestroyed shell w); simpl;
    [by apply calm_log | apply rtc_refl].
Qed.

Lemma calm_SubShell_call shell m w :
  m ≠ M_destroy → calm w (SubShell_call E shell m w).1.
Proof.
  intros Hm.
  unfold SubShell_call. destruct (subshells w !! shell); [|apply rtc_refl].
  destruct m; simpl; try done;
    unfold SubShell_readChar, SubShell_readLine, SubShell_abortRead,
      SubShell_print, SubShell_printLine, SubShell_printList, SubShell_clear;
    try (destruct (checkDestroyed shell w); simpl;
         [by apply calm_log | apply rtc_refl]);
    same.
Qed.

Lemma moves_SubShell_call shell m w : moves w (SubShell_call E shell m w).1.
Proof.
  destruct m; try (by apply moves_calm, calm_SubShell_call).
  unfold SubShell_call. destruct (subshells w !! shell); simpl.
  - apply moves_destroy.
  - apply moves_calm, rtc_refl.
Qed.

Lemma moves_do_action a w : moves w (do_action E a w).1.
Proof.
  destruct a; simpl.
  - apply moves_SubShell_call.
  - apply moves_gen_next.
  - apply moves_calm, calm_gen_return.
  - apply moves_calm, calm_foldl_push.
Qed.

Lemma internal_calm w w' : calm w w' → internal w w'.
Proof. intros. by apply rtc_once, moves_calm. Qed.

Lemma internal_exec {R : Type} (p : Script R) w : internal w (exec E p w).1.
Proof.
  revert w. induction p as [r|e|a k IH]; intros w; simpl; try apply rtc_refl.
  pose proof (moves_do_action a w) as Ha.
  destruct (do_action E a w) as [w' r]. simpl in Ha.
  eapply rtc_l; [exact Ha | apply IH].
Qed.

Lemma internal_drain shell g w : internal w (drain E shell g w).1.
Proof.
  revert w. induction g as [|e|data rest IH|a k IH]; intros w; simpl;
    try apply rtc_refl.
  - eapply rtc_trans; [|apply IH].
    apply internal_calm, calm_SubShell_print.
  - pose proof (moves_do_action a w) as Ha.
    destruct (do_action E a w) as [w' r]. simpl in Ha.
    eapply rtc_l; [exact Ha | apply IH].
Qed.

Lemma internal_then_destroy c w w1 :
  internal w w1 → internal w (destroy c w1).
Proof. intros H. eapply rtc_r; [exact H | apply moves_destroy]. Qed.

Lemma internal_run cmd args flags w : internal w (run E cmd args flags w).1.
Proof.
  unfold run. destruct cmd as [name|]; [|apply rtc_refl].
  destruct (falsy (Some name)); [apply rtc_refl|].
  destruct (negb (Map_has name (commands w))); [apply rtc_refl|].
  destruct (Map_get name (commands w)) as [entry|]; [|apply rtc_refl].
  set (shell := length (subshells w)).
  set (w1 := log (HandlerCall name shell args flags) (SubShell_new w)).
  assert (H1 : internal w w1).
  { eapply rtc_l; [apply moves_new|]. by apply internal_calm, calm_log. }
  pose proof (internal_exec (fn entry shell args flags) w1) as H2.
  destruct (exec E (fn entry shell args flags) w1) as [w2 [result|e]];
    simpl in H2; [|by eapply rtc_trans].
  assert (H12 : internal w w2) by by eapply rtc_trans.
  destruct result as [|p|g|]; simpl; try done.
  - pose proof (internal_exec p w2) as H3.
    destruct (exec E p w2) as [w3 [[]|e]]; simpl in *.
    + apply internal_then_destroy. by eapply rtc_trans.
    + by eapply rtc_trans.
  - pose proof (internal_drain shell g w2) as H3.
    destruct (drain E shell g w2) as [w3 [[]|e]]; simpl in *.
    + apply internal_then_destroy. by eapply rtc_trans.
    + by eapply rtc_trans.
  - by apply internal_then_destroy.
Qed.

Lemma internal_repl_pass w : internal w (repl_pass E w).1.
Proof.
  unfold repl_pass. destruct (prompt w) as [p|e]; [|apply rtc_refl].
  assert (H1 : internal w (log (EchoRead p) w))
    by by apply internal_calm, calm_log.
  destruct (echo_read E (trace w) p) as [line|e]; [|done].
  destruct (stringToArgv E line) as [argv|e]; [|done].
  destruct (minimist E (tail argv)) as [parsed|e]; [|done].
  pose proof (internal_run (head argv) (positional parsed) parsed
                (log (EchoRead p) w)) as H2.
  destruct (run E (head argv) (positional parsed) parsed (log (EchoRead p) w))
    as [w2 [[]|e]]; simpl in *.
  - by eapply rtc_trans.
  - eapply rtc_trans; [by eapply rtc_trans|].
    apply internal_calm.
    destruct e as [e| |v]; simpl.
    + eapply calm_trans; [by apply (calm_log (ConsoleError e))|].
      by apply (calm_log (EchoPrintln (message e))).
    + by apply (calm_log (ConsoleError NullValue)).
    + eapply calm_trans; [by apply (calm_log (ConsoleError (OtherValue v)))|].
      by apply (calm_log EchoPrintlnUndefined).
Qed.

Lemma calm_register w r : calm w (register w r).
Proof.
  unfold register, command. destruct (Map_has _ _).
  - apply (calm_then_same w
             (log (ConsoleWarn (ERROR_ALREADY_REGISTERED (reg_name r))) w));
      [by apply calm_log|done..|stream_side|done].
  - same.
Qed.

Lemma calm_XtermJSShell_call m w : calm w (XtermJSShell_call E m w).1.
Proof. destruct m; simpl; try (by apply calm_log); apply rtc_refl. Qed.

Lemma internal_perform w a : indirect a = true → internal w (perform E w a).
Proof.
  destruct a; simpl; try done; intros _.
  - apply internal_calm, calm_register.
  - apply internal_calm, calm_XtermJSShell_call.
  - apply internal_calm. same.
  - apply rtc_once, moves_do_action.
  - apply internal_run.
  - apply internal_repl_pass.
Qed.

Lemma toggles_perform w a : rtc toggles w (perform E w a).
Proof.
  destruct (indirect a) eqn:Ha.
  - eapply rtc_subrel; [|by apply internal_perform].
    intros ???. by apply toggles_moves.
  - destruct a; try done; simpl.
    + apply rtc_once, toggles_detach.
    + apply rtc_once, toggles_attach.
Qed.

Lemma toggles_perform_all acts w : rtc toggles w (perform_all E acts w).
Proof.
  revert w. induction acts as [|a acts IH]; intros w; simpl; [apply rtc_refl|].
  eapply rtc_trans; [apply toggles_perform | apply IH].
Qed.


(* ===================================================================== *)
(** ** Invariants of the attachment handshake *)

Lemma echo_after_app b t1 t2 :
  echo_after b (t1 ++ t2) = echo_after b t1 ≫= λ b', echo_after b' t2.
Proof.
  revert b. induction t1 as [|e t1 IH]; intros b; [done|].
  destruct e, b; simpl; try apply IH; done.
Qed.


Lemma trace_remove s w :
  trace (remove s w) =
  trace w ++ ListenerDispose s :: (if attached w then [] else [EchoAttach]).
Proof.
  unfold remove, attach. simpl. destruct (attached w); simpl; [done|].
  by rewrite <- app_assoc.
Qed.

Lemma attached_remove s w : attached (remove s w) = true.
Proof. unfold remove, attach. simpl. by destruct (attached w) eqn:H. Qed.

Lemma listeners_remove s w :
  listeners (remove s w) = filter (λ x, x ≠ s) (listeners w).
Proof. unfold remove, attach. simpl. by destruct (attached w). Qed.

Lemma trace_listen s w :
  trace (listen s w) =
  trace w ++ TermOnData s :: (if attached w then [EchoDetach] else []).
Proof.
  unfold listen, detach. simpl. destruct (attached w); simpl; [|done].
  by rewrite <- app_assoc.
Qed.

Lemma attached_listen s w : attached (listen s w) = false.
Proof. unfold listen, detach. simpl. by destruct (attached w) eqn:H. Qed.

Lemma listeners_listen s w : listeners (listen s w) = listeners w ++ [s].
Proof. unfold listen, detach. simpl. by destruct (attached w). Qed.

Lemma echo_inv_basic w w' : basic w w' → echo_inv w → echo_inv w'.
Proof.
  unfold echo_inv. intros [w1 w2 Ht Ha _|e w1 w2 Hq Ht Ha _|s w1 w2 Ht Ha _] Hw.
  - by rewrite Ht, Ha.
  - rewrite Ht, Ha, echo_after_app, Hw. simpl. by destruct e.
  - rewrite Ht, Ha, trace_remove, attached_remove, echo_after_app, Hw. simpl.
    by destruct (attached w1).
Qed.

Lemma echo_inv_calm w w' : calm w w' → echo_inv w → echo_inv w'.
Proof. induction 1; [done|]. intros. by eauto using echo_inv_basic. Qed.

Lemma echo_inv_listen s w : echo_inv w → echo_inv (listen s w).
Proof.
  unfold echo_inv. intros Hw.
  rewrite trace_listen, attached_listen, echo_after_app, Hw. simpl.
  by destruct (attached w).
Qed.

Lemma echo_inv_detach w : echo_inv w → echo_inv (detach w).
Proof.
  unfold echo_inv, detach. intros Hw. destruct (attached w) eqn:Ha; simpl.
  - by rewrite echo_after_app, Hw.
  - by rewrite Hw, Ha.
Qed.

Lemma echo_inv_attach w : echo_inv w → echo_inv (attach w).
Proof.
  unfold echo_inv, attach. intros Hw. destruct (attached w) eqn:Ha; simpl.
  - by rewrite Hw, Ha.
  - by rewrite echo_after_app, Hw.
Qed.

Lemma echo_inv_toggles w w' : rtc toggles w w' → echo_inv w → echo_inv w'.
Proof.
  induction 1 as [|w1 w2 w3 Hstep _ IH]; [done|]. intros Hw. apply IH.
  destruct Hstep as [? ? [? ? Hc|s ? ? Hc|?|? ?]| |].
  - by eapply echo_inv_calm.
  - eapply echo_inv_calm; [exact Hc | by apply echo_inv_listen].
  - done.
  - done.
  - by apply echo_inv_detach.
  - by apply echo_inv_attach.
Qed.











Lemma streams_listen s w : streams (listen s w) = streams w.
Proof. unfold listen, detach. simpl. by destruct (attached w). Qed.









Lemma streams_remove s w : streams (remove s w) = streams w.
Proof. unfold remove, attach. simpl. by destruct (attached w). Qed.

Lemma settle_all_fields s rs w :
  listeners (settle_all s rs w) = listeners w
  ∧ attached (settle_all s rs w) = attached w
  ∧ streams (settle_all s rs w) = streams w.
Proof.
  revert w. induction rs as [|r rs IH]; intros w; simpl; [done|].
  by destruct (IH (log (Delivered s IterDone) w)) as (-> & -> & ->).
Qed.

Lemma not_in_filter_ne (s : nat) (l : list nat) : s ∉ filter (λ x, x ≠ s) l.
Proof. by intros [? _]%list_elem_of_filter. Qed.

(** ** The attachment handshake *)

(** C10. [detach()] on a detached session and [attach()] on an attached
    one change nothing at all: the state, and so the calls that the echo
    engine has received, are the same afterwards. On an attached session
    [detach()] makes one call of the engine's [detach] and clears the
    flag, and symmetrically. Hence, whatever is done to a session from
    its construction on, the engine's [detach] and [attach] calls
    alternate strictly, beginning with a [detach], and the flag is the
    engine's state. *)
Theorem attach_detach_idempotent
    (wd wa : Shell) (acts : list Activity)
    (Hd : attached wd = false) (Ha : attached wa = true) :
  detach wd = wd
  ∧ attach wa = wa
  ∧ trace (attach wd) = trace wd ++ [EchoAttach]
  ∧ attached (attach wd) = true
  ∧ trace (detach wa) = trace wa ++ [EchoDetach]
  ∧ attached (detach wa) = false
  ∧ echo_after true (trace (perform_all E acts XtermJSShell_new)) =
      Some (attached (perform_all E acts XtermJSShell_new)).
Proof.
  unfold detach, attach. rewrite Hd, Ha. simpl. split_and!; try done.
  apply (echo_inv_toggles XtermJSShell_new); [apply toggles_perform_all|done].
Qed.


(* ===================================================================== *)
(** ** Contexts *)

Lemma calm_subshells w w' : calm w w' → subshells w' = subshells w.
Proof.
  induction 1 as [|w1 w2 w3 Hstep _ IH]; [done|].
  rewrite IH. by destruct Hstep.
Qed.

Lemma subshells_listen s w : subshells (listen s w) = subshells w.
Proof. unfold listen, detach. simpl. by destruct (attached w). Qed.

Lemma moves_subshells_length w w' :
  moves w w' → length (subshells w) ≤ length (subshells w').
Proof.
  intros [w1 w2 Hc|s w1 w2 Hc|w1|c w1].
  - by rewrite (calm_subshells _ _ Hc).
  - by rewrite (calm_subshells _ _ Hc), subshells_listen.
  - simpl. rewrite length_app. lia.
  - simpl. by rewrite length_insert.
Qed.

Lemma internal_subshells_length w w' :
  internal w w' → length (subshells w) ≤ length (subshells w').
Proof.
  induction 1 as [|w1 w2 w3 Hstep _ IH]; [done|].
  apply moves_subshells_length in Hstep. lia.
Qed.

Lemma gen_next_subshells s w : subshells (gen_next s w).1 = subshells w.
Proof.
  unfold gen_next. destruct (streams w !! s) as [st|]; [|done].
  destruct (phase st); simpl; try done.
  - by rewrite (calm_subshells _ _ (calm_pull s st (listen s w))),
      subshells_listen.
  - by rewrite (calm_subshells _ _ (calm_pull s st w)).
Qed.

(** Only [destroy] on context [c] changes the flag of [c]. *)
Lemma do_action_keeps c a w :
  a ≠ ACall c M_destroy →
  subshells (do_action E a w).1 !! c = subshells w !! c.
Proof.
  intros Ha. destruct a as [c' m| | |]; simpl.
  - assert (Hm : m = M_destroy ∨ m ≠ M_destroy)
      by (destruct m; (by left) || (by right)).
    destruct Hm as [->|Hm].
    + unfold SubShell_call. destruct (subshells w !! c'); [|done]. simpl.
      apply list_lookup_insert_ne. congruence.
    + by rewrite (calm_subshells _ _ (calm_SubShell_call c' m w Hm)).
  - by rewrite gen_next_subshells.
  - by rewrite (calm_subshells _ _ (calm_gen_return _ w)).
  - unfold term_data. by rewrite (calm_subshells _ _ (calm_foldl_push _ _ w)).
Qed.

Lemma exec_keeps {R : Type} (leaf : R → Prop) c (p : Script R) w :
  keeps leaf c p →
  subshells (exec E p w).1 !! c = subshells w !! c
  ∧ match (exec E p w).2 with Fulfilled r => leaf r | Rejected _ => True end.
Proof.
  revert w. induction p as [r|e|a k IH]; intros w; simpl; try done.
  intros [Ha Hk]. pose proof (do_action_keeps c a w Ha) as Hc.
  destruct (do_action E a w) as [w' r]. simpl in Hc.
  rewrite <- Hc. by apply IH.
Qed.

Lemma SubShell_print_subshells shell msg w :
  subshells (SubShell_print shell msg w).1 = subshells w.
Proof. apply calm_subshells, calm_SubShell_print. Qed.

Lemma drain_keeps shell c g w :
  keeps_gen c g → subshells (drain E shell g w).1 !! c = subshells w !! c.
Proof.
  revert w. induction g as [|e|data rest IH|a k IH]; intros w; simpl; try done.
  - intros Hk. by rewrite IH, SubShell_print_subshells.
  - intros [Ha Hk]. pose proof (do_action_keeps c a w Ha) as Hc.
    destruct (do_action E a w) as [w' r]. simpl in Hc.
    rewrite <- Hc. by apply IH.
Qed.

Lemma falsy_name name : name ≠ "" → falsy (Some name) = false.
Proof. intros. unfold falsy. by apply bool_decide_eq_false. Qed.

(** [if (!command) return]: an empty line, which gives no command, and
    the empty string are dispatched to nothing. *)
Lemma run_unset_command args flags w :
  run E None args flags w = (w, Fulfilled tt)
  ∧ run E (Some "") args flags w = (w, Fulfilled tt).
Proof. done. Qed.

Lemma Map_has_Some {V : Type} k (m : list (string * V)) v :
  Map_get k m = Some v → Map_has k m = true.
Proof. unfold Map_has. by intros ->. Qed.

(** [run] on a bound name: the handler is called on a fresh context, and
    [run] ends as the handler does. What the handler throws, what its
    promise rejects with and what its sequence throws is what [run]
    rejects with, in the state the handler left: [destroy] is not called.
    When the result settles normally, [run] calls [destroy] on that state
    and returns. *)
Lemma run_follows_handler name args flags w entry :
  name ≠ "" → Map_get name (commands w) = Some entry →
  let shell := length (subshells w) in
  let w1 := log (HandlerCall name shell args flags) (SubShell_new w) in
  let called := exec E (fn entry shell args flags) w1 in
  match called.2 with
  | Rejected e => run E (Some name) args flags w = (called.1, Rejected e)
  | Fulfilled Nullish =>
      ∃ msg, run E (Some name) args flags w =
               (called.1, Rejected (TypeError msg))
  | Fulfilled (Thenable p) =>
      match (exec E p called.1).2 with
      | Rejected e =>
          run E (Some name) args flags w =
            ((exec E p called.1).1, Rejected e)
      | Fulfilled _ =>
          run E (Some name) args flags w =
            (destroy shell (exec E p called.1).1, Fulfilled tt)
      end
  | Fulfilled (Iterator g) =>
      match (drain E shell g called.1).2 with
      | Rejected e =>
          run E (Some name) args flags w =
            ((drain E shell g called.1).1, Rejected e)
      | Fulfilled _ =>
          run E (Some name) args flags w =
            (destroy shell (drain E shell g called.1).1, Fulfilled tt)
      end
  | Fulfilled Plain =>
      run E (Some name) args flags w = (destroy shell called.1, Fulfilled tt)
  end.
Proof.
  intros Hname Hget shell w1 called. unfold run.
  rewrite (falsy_name _ Hname), (Map_has_Some _ _ _ Hget), Hget. simpl.
  fold shell. fold w1. fold called.
  destruct called as [w2 [result|e]]; simpl; [|done].
  destruct result as [|p|g|]; simpl.
  - by eexists.
  - by destruct (exec E p w2) as [w3 [[]|e]].
  - by destruct (drain E shell g w2) as [w3 [[]|e]].
  - done.
Qed.

(** C1, as the code has it. [run] makes a fresh, live context and calls
    the handler on it. When the handler's result settles normally, [run]
    calls [destroy] on the context and returns: the context is destroyed
    when [run] returns. When the handler throws, or returns a promise
    that rejects, or its sequence throws, [run] rejects with the value
    thrown, in the state the handler left, without calling [destroy]:
    unless the handler destroyed its context itself, the context is still
    live when the error reaches the loop. *)
Theorem run_destroys_context_on_success
    (name : string) (args : list string) (flags : Parsed) (w : Shell)
    (entry : Entry)
    (Hname : name ≠ "") (Hget : Map_get name (commands w) = Some entry) :
  let shell := length (subshells w) in
  let w' := (run E (Some name) args flags w).1 in
  let w1 := log (HandlerCall name shell args flags) (SubShell_new w) in
  let called := exec E (fn entry shell args flags) w1 in
  match (run E (Some name) args flags w).2 with
  | Fulfilled _ => subshells w' !! shell = Some true
  | Rejected _ =>
      keeps_handler shell (fn entry shell args flags) →
      subshells w' !! shell = Some false
  end
  ∧ subshells w1 !! shell = Some false
  ∧ match called.2 with
    | Rejected e => run E (Some name) args flags w = (called.1, Rejected e)
    | Fulfilled Nullish =>
        ∃ msg, run E (Some name) args flags w =
                 (called.1, Rejected (TypeError msg))
    | Fulfilled (Thenable p) =>
        match (exec E p called.1).2 with
        | Rejected e =>
            run E (Some name) args flags w =
              ((exec E p called.1).1, Rejected e)
        | Fulfilled _ =>
            run E (Some name) args flags w =
              (destroy shell (exec E p called.1).1, Fulfilled tt)
        end
    | Fulfilled (Iterator g) =>
        match (drain E shell g called.1).2 with
        | Rejected e =>
            run E (Some name) args flags w =
              ((drain E shell g called.1).1, Rejected e)
        | Fulfilled _ =>
            run E (Some name) args flags w =
              (destroy shell (drain E shell g called.1).1, Fulfilled tt)
        end
    | Fulfilled Plain =>
        run E (Some name) args flags w =
          (destroy shell called.1, Fulfilled tt)
    end.
Proof.
  intros shell w' w1' called.
  split; [|split;
    [simpl; by apply list_lookup_middle
    |exact (run_follows_handler name args flags w entry Hname Hget)]].
  subst w' w1' called. unfold run.
  rewrite (falsy_name _ Hname), (Map_has_Some _ _ _ Hget), Hget. simpl.
  fold shell.
  set (w1 := log (HandlerCall name shell args flags) (SubShell_new w)).
  assert (Hfresh : subshells w1 !! shell = Some false).
  { simpl. by apply list_lookup_middle. }
  assert (Hlen : ∀ w3, internal w1 w3 →
            subshells (destroy shell w3) !! shell = Some true).
  { intros w3 H3. simpl. apply list_lookup_insert_eq.
    apply internal_subshells_length in H3.
    apply lookup_lt_Some in Hfresh. lia. }
  pose proof (internal_exec (fn entry shell args flags) w1) as H2.
  pose proof (exec_keeps (keeps_result shell) shell
                (fn entry shell args flags) w1) as K2.
  destruct (exec E (fn entry shell args flags) w1) as [w2 [result|e]];
    simpl in *.
  2:{ intros Hk. destruct (K2 Hk) as [-> _]. done. }
  destruct result as [|p|g|]; simpl.
  - intros Hk. destruct (K2 Hk) as [-> _]. done.
  - pose proof (internal_exec p w2) as H3.
    pose proof (exec_keeps (λ _, True) shell p w2) as K3.
    destruct (exec E p w2) as [w3 [[]|e]]; simpl in *.
    + apply Hlen. by eapply rtc_trans.
    + intros Hk. destruct (K2 Hk) as [H2' Hp].
      destruct (K3 Hp) as [-> _]. by rewrite H2'.
  - pose proof (internal_drain shell g w2) as H3.
    pose proof (drain_keeps shell shell g w2) as K3.
    destruct (drain E shell g w2) as [w3 [[]|e]]; simpl in *.
    + apply Hlen. by eapply rtc_trans.
    + intros Hk. destruct (K2 Hk) as [H2' Hg].
      rewrite (K3 Hg). by rewrite H2'.
  - by apply Hlen.
Qed.

(* ===================================================================== *)
(** ** Dispatch and the loop *)

Lemma SubShell_call_print shell msg w :
  is_Some (subshells w !! shell) →
  SubShell_call E shell (M_print msg) w = SubShell_print shell msg w.
Proof. intros [b Hb]. unfold SubShell_call. by rewrite Hb. Qed.

(** Draining a generator is running it with a [print] in the place of
    every [yield]. *)
Lemma drain_inline_prints shell g w :
  is_Some (subshells w !! shell) →
  drain E shell g w = exec E (inline_prints shell g) w.
Proof.
  revert w. induction g as [|e|data rest IH|a k IH]; intros w Hs; simpl;
    try done.
  - rewrite SubShell_call_print by done.
    pose proof (SubShell_print_subshells shell data w) as Hp.
    destruct (SubShell_print shell data w) as [w' r]. simpl in *.
    apply IH. by rewrite Hp.
  - pose proof (moves_do_action a w) as Ha.
    destruct (do_action E a w) as [w' r]. simpl in Ha. apply IH.
    apply moves_subshells_length in Ha.
    apply lookup_lt_is_Some. apply lookup_lt_is_Some in Hs. lia.
Qed.

Lemma drain_yields shell chunks w :
  is_destroyed shell w = false →
  (drain E shell (yields chunks) w).2 = Fulfilled tt
  ∧ trace (drain E shell (yields chunks) w).1 =
      trace w ++ (TermWrite <$> chunks)
  ∧ subshells (drain E shell (yields chunks) w).1 = subshells w.
Proof.
  revert w. induction chunks as [|data rest IH]; intros w Hlive; simpl.
  - by rewrite app_nil_r.
  - unfold SubShell_print, checkDestroyed. rewrite Hlive. simpl.
    destruct (IH (log (TermWrite data) w) Hlive) as (-> & -> & ->).
    simpl. by rewrite <- app_assoc.
Qed.

(** C9. When the handler returns a lazy sequence, [run] does what the
    sequence does and prints every chunk on the context, through
    [SubShell.print], at the point where the sequence yields it, before
    the sequence goes on: chunks are neither reordered nor held back. A
    sequence that yields the chunks of a list and ends, on a context that
    is live, makes [run] write exactly these chunks to the terminal, in
    that order; [run] then destroys the context and returns. *)
Theorem run_drains_sequence_in_order
    (name : string) (args : list string) (flags : Parsed) (w w2 : Shell)
    (entry : Entry) (g : Gen)
    (Hname : name ≠ "") (Hget : Map_get name (commands w) = Some entry)
    (Hfn : exec E (fn entry (length (subshells w)) args flags)
             (log (HandlerCall name (length (subshells w)) args flags)
                (SubShell_new w))
           = (w2, Fulfilled (Iterator g))) :
  let shell := length (subshells w) in
  run E (Some name) args flags w =
    match exec E (inline_prints shell g) w2 with
    | (w3, Fulfilled _) => (destroy shell w3, Fulfilled tt)
    | (w3, Rejected e) => (w3, Rejected e)
    end
  ∧ ∀ chunks, g = yields chunks → is_destroyed shell w2 = false →
      (run E (Some name) args flags w).2 = Fulfilled tt
      ∧ trace (run E (Some name) args flags w).1 =
          trace w2 ++ (TermWrite <$> chunks)
      ∧ subshells (run E (Some name) args flags w).1 !! shell = Some true.
Proof.
  intros shell.
  assert (Hin : is_Some (subshells w2 !! shell)).
  { pose proof (internal_exec (fn entry shell args flags)
                  (log (HandlerCall name shell args flags) (SubShell_new w)))
      as H2.
    fold shell in Hfn. rewrite Hfn in H2. simpl in H2.
    apply internal_subshells_length in H2. simpl in H2.
    rewrite length_app in H2. simpl in H2.
    apply lookup_lt_is_Some. unfold shell. lia. }
  assert (Hrun : run E (Some name) args flags w =
                 match drain E shell g w2 with
                 | (w3, Fulfilled _) => (destroy shell w3, Fulfilled tt)
                 | (w3, Rejected e) => (w3, Rejected e)
                 end).
  { unfold run.
    rewrite (falsy_name _ Hname), (Map_has_Some _ _ _ Hget), Hget. simpl.
    fold shell. fold shell in Hfn. rewrite Hfn.
    by destruct (drain E shell g w2) as [w3 [[]|e]]. }
  split.
  - rewrite Hrun. rewrite drain_inline_prints by done.
    by destruct (exec E (inline_prints shell g) w2) as [w3 [[]|e]].
  - intros chunks -> Hlive. rewrite Hrun.
    destruct (drain_yields shell chunks w2 Hlive) as (Hr & Ht & Hs).
    destruct (drain E shell (yields chunks) w2) as [w3 r]. simpl in *.
    subst r. simpl. split_and!; [done | done |].
    apply list_lookup_insert_eq. rewrite Hs. by apply lookup_lt_is_Some.
Qed.

(** C6. A non-empty command name that is not bound makes [run] reject
    with the error whose message is "Command Not Found: name", and
    changes nothing: no context is made, no handler is called. A pass of
    the loop that reads such a command logs the error on the console,
    prints the message as one line, and starts the next pass. *)
Theorem run_unknown_command_not_found
    (name : string) (args rest : list string) (flags parsed : Parsed)
    (w : Shell) (p line : string)
    (Hname : name ≠ "") (Hhas : Map_has name (commands w) = false)
    (Hprompt : prompt w = Fulfilled p)
    (Hread : echo_read E (trace w) p = Fulfilled line)
    (Htok : stringToArgv E line = Fulfilled (name :: rest))
    (Hparse : minimist E rest = Fulfilled parsed) :
  let e := TypeError ("Command Not Found: " +:+ name) in
  run E (Some name) args flags w = (w, Rejected e)
  ∧ message e = "Command Not Found: " +:+ name
  ∧ (repl_pass E w).2 = Again
  ∧ trace (repl_pass E w).1 =
      trace w ++ [EchoRead p; ConsoleError e; EchoPrintln (message e)]
  ∧ subshells (repl_pass E w).1 = subshells w
  ∧ ∀ n, repl E (S n) w = repl E n (repl_pass E w).1.
Proof.
  intros e.
  assert (Hrun : ∀ args flags w, Map_has name (commands w) = false →
            run E (Some name) args flags w = (w, Rejected e)).
  { intros args' flags' w' Hhas'. unfold run.
    by rewrite (falsy_name _ Hname), Hhas'. }
  assert (Hpass : repl_pass E w =
            (log (EchoPrintln (message e))
               (log (ConsoleError e) (log (EchoRead p) w)), Again)).
  { unfold repl_pass. rewrite Hprompt, Hread, Htok. cbn [head tail].
    rewrite Hparse. by rewrite Hrun. }
  split_and!; try done.
  - by apply Hrun.
  - by rewrite Hpass.
  - rewrite Hpass. simpl. by rewrite <- !app_assoc.
  - by rewrite Hpass.
  - intros n. simpl. by rewrite Hpass.
Qed.


(* ===================================================================== *)
(** ** A destroyed context *)

(** C4, as the code has it. On a destroyed context, [print], [printLine],
    [printList], [readChar], [readLine], [abortRead] and [clear] fail with
    the error "Terminal destroyed" and do nothing; [destroy] again is
    harmless. [readStream] does not check the flag when it is called: it
    returns a generator; the first pull of that generator raises nothing
    either and detaches the line editor; the first chunk that reaches it
    is dropped, the generator ends, and the line editor is attached
    again. *)
Theorem destroyed_context_rejects
    (shell : nat) (w : Shell) (Hd : subshells w !! shell = Some true) :
  (∀ m, m ≠ M_readStream → m ≠ M_destroy →
     SubShell_call E shell m w = (w, Threw (Error "Error" "Terminal destroyed")))
  ∧ (SubShell_call E shell M_destroy w).2 = Undefined
  ∧ subshells (SubShell_call E shell M_destroy w).1 = subshells w
  ∧ ∀ data,
      let s := length (streams w) in
      let w1 := (SubShell_call E shell M_readStream w).1 in
      let w2 := (gen_next s w1).1 in
      let w3 := push data w2 s in
      (SubShell_call E shell M_readStream w).2 = Generator s
      ∧ (gen_next s w1).2 = Unsettled
      ∧ attached w2 = false
      ∧ trace w3 = trace w2 ++ [ListenerDispose s; EchoAttach; Delivered s IterDone]
      ∧ attached w3 = true
      ∧ phase <$> (streams w3 !! s) = Some Completed.
Proof.
  assert (Hdes : is_destroyed shell w = true) by (unfold is_destroyed; by rewrite Hd).
  split_and!.
  - intros m Hm1 Hm2. unfold SubShell_call. rewrite Hd.
    destruct m; try done;
      unfold SubShell_readChar, SubShell_readLine, SubShell_abortRead,
        SubShell_print, SubShell_printLine, SubShell_printList, SubShell_clear,
        checkDestroyed; by rewrite Hdes.
  - unfold SubShell_call. by rewrite Hd.
  - unfold SubShell_call. rewrite Hd. simpl. by apply list_insert_id.
  - intros data s w1 w2 w3.
    set (st := {| owner := shell; phase := SuspendedStart; buffer := [];
                  requests := [] |}).
    assert (Hw1 : w1 = set_streams (streams w ++ [st]) w).
    { unfold w1, SubShell_call. by rewrite Hd. }
    assert (Hs1 : streams w1 !! s = Some st).
    { rewrite Hw1. simpl. by apply list_lookup_middle. }
    assert (Hw2 : gen_next s w1 =
                  (put_stream s (set_phase Awaiting st) (listen s w1), Unsettled)).
    { unfold gen_next. by rewrite Hs1. }
    assert (Hs2 : streams w2 !! s = Some (set_phase Awaiting st)).
    { unfold w2. rewrite Hw2. simpl. rewrite streams_listen.
      apply list_lookup_insert_eq. by apply lookup_lt_is_Some. }
    assert (Hat2 : attached w2 = false).
    { unfold w2. rewrite Hw2. simpl. apply attached_listen. }
    assert (Hdes2 : is_destroyed shell w2 = true).
    { unfold w2. rewrite Hw2. unfold is_destroyed. simpl.
      rewrite subshells_listen, Hw1. simpl. by rewrite Hd. }
    assert (Hw3 : w3 = log (Delivered s IterDone)
                         (finish s (set_phase Awaiting st) w2)).
    { unfold w3, push. rewrite Hs2. simpl. by rewrite Hdes2. }
    split_and!.
    + unfold SubShell_call. by rewrite Hd.
    + by rewrite Hw2.
    + done.
    + rewrite Hw3. simpl. rewrite trace_remove, Hat2.
      by rewrite <- app_assoc.
    + rewrite Hw3. simpl. apply attached_remove.
    + rewrite Hw3. simpl.
      rewrite list_lookup_insert_eq; [done|].
      assert (Hx : streams (remove s w2) = streams w2).
      { unfold remove, attach. simpl. by destruct (attached w2). }
      rewrite Hx. by apply lookup_lt_is_Some.
Qed.

End Properties.


(* ===================================================================== *)
(** * The statements on concrete sessions *)

(** ** Where the code departs from the specification *)

(** C1 fails: a handler that throws, and one whose promise rejects, make
    [run] reject with the context it created still live. *)
Lemma failed_handler_leaves_context_live :
  let host := plain_host [] in
  let w :=
    register_all [reg "fail" fail_sync; reg "reject" fail_async]
      XtermJSShell_new in
  let thrown := run host (Some "fail") [] no_flags w in
  let rejected := run host (Some "reject") [] no_flags w in
  thrown.2 = Rejected boom
  ∧ subshells thrown.1 = [false]
  ∧ rejected.2 = Rejected boom
  ∧ subshells rejected.1 = [false].
Proof. vm_compute. by split_and!. Qed.



(** C4 fails for [readStream]: on a destroyed context it returns a
    generator; pulling it and feeding it a chunk raises nothing, the
    chunk is dropped and the generator ends. *)
Lemma readStream_ignores_destroyed :
  let host := plain_host [] in
  let called := SubShell_call host 0 M_readStream stale_session in
  let pulled := gen_next 0 called.1 in
  let fed := term_data "x" pulled.1 in
  is_destroyed 0 stale_session = true
  ∧ called.2 = Generator 0
  ∧ pulled.2 = Unsettled
  ∧ trace fed =
      [TermOnData 0; EchoDetach; ListenerDispose 0; EchoAttach;
       Delivered 0 IterDone]
  ∧ (gen_next 0 fed).2 = IterDone.
Proof. vm_compute. by split_and!. Qed.

(** ** The theorems at work *)

Lemma run_destroys_context_on_success_witness :
  let w := register_all [reg "gen" gen_abc; reg "fail" fail_sync]
             XtermJSShell_new in
  ("gen" ≠ "" ∧ Map_get "gen" (commands w) = Some
     {| command_name := "gen"; fn := gen_abc; autocomplete := None |})
  ∧ ("fail" ≠ "" ∧ Map_get "fail" (commands w) = Some
     {| command_name := "fail"; fn := fail_sync; autocomplete := None |}
     ∧ keeps_handler 0 (fail_sync 0 [] no_flags))
  ∧ subshells (run (plain_host []) (Some "gen") [] no_flags w).1 !! 0
    = Some true
  ∧ subshells (run (plain_host []) (Some "fail") [] no_flags w).1 !! 0
    = Some false
  ∧ run (plain_host []) (Some "fail") [] no_flags w =
      (log (HandlerCall "fail" 0 [] no_flags) (SubShell_new w), Rejected boom)
  ∧ run (plain_host []) (Some "gen") [] no_flags w =
      (destroy 0
         (drain (plain_host []) 0 (yields ["a"; "b"; "c"])
            (log (HandlerCall "gen" 0 [] no_flags) (SubShell_new w))).1,
       Fulfilled tt).
Proof.
  intros w.
  assert (Hname : "gen" ≠ "") by done.
  assert (Hget : Map_get "gen" (commands w) = Some
     {| command_name := "gen"; fn := gen_abc; autocomplete := None |})
    by reflexivity.
  assert (Hname' : "fail" ≠ "") by done.
  assert (Hget' : Map_get "fail" (commands w) = Some
     {| command_name := "fail"; fn := fail_sync; autocomplete := None |})
    by reflexivity.
  assert (Hkeeps : keeps_handler 0 (fail_sync 0 [] no_flags)) by exact I.
  split_and!.
  - exact Hname.
  - exact Hget.
  - exact Hname'.
  - exact Hget'.
  - exact Hkeeps.
  - exact (proj1 (run_destroys_context_on_success (plain_host []) "gen" []
                    no_flags w _ Hname Hget)).
  - exact (proj1 (run_destroys_context_on_success (plain_host []) "fail" []
                    no_flags w _ Hname' Hget') Hkeeps).
  - exact (proj2 (proj2 (run_destroys_context_on_success (plain_host [])
                           "fail" [] no_flags w _ Hname' Hget'))).
  - exact (proj2 (proj2 (run_destroys_context_on_success (plain_host [])
                           "gen" [] no_flags w _ Hname Hget))).
Defined.



Lemma destroyed_context_rejects_witness :
  subshells stale_session !! 0 = Some true
  ∧ SubShell_call (plain_host []) 0 (M_print "late") stale_session =
      (stale_session, Threw (Error "Error" "Terminal destroyed")).
Proof.
  assert (Hd : subshells stale_session !! 0 = Some true) by reflexivity.
  split; [exact Hd|].
  by apply (proj1 (destroyed_context_rejects (plain_host []) 0 stale_session Hd)).
Defined.

Lemma command_last_write_wins_witness :
  Forall (λ r', reg_name r' ≠ "echo") [reg "ls" gen_abc]
  ∧ fn <$> Map_get "echo"
             (commands
                (register_all
                   [reg "echo" fail_sync; reg "echo" gen_abc; reg "ls" gen_abc]
                   XtermJSShell_new))
    = Some gen_abc.
Proof.
  assert (H : Forall (λ r', reg_name r' ≠ reg_name (reg "echo" gen_abc))
                [reg "ls" gen_abc]).
  { apply Forall_cons. split; [done | apply Forall_nil_2]. }
  split; [exact H|].
  pose proof (command_last_write_wins XtermJSShell_new [reg "echo" fail_sync]
                [reg "ls" gen_abc] (reg "echo" gen_abc) H)
    as (_ & _ & _ & Hget & _).
  exact (f_equal (fmap fn) Hget).
Defined.

Lemma run_unknown_command_not_found_witness :
  let host := plain_host ["nope -x"] in
  let w := register_all [reg "gen" gen_abc] XtermJSShell_new in
  ("nope" ≠ "" ∧ Map_has "nope" (commands w) = false
   ∧ prompt w = Fulfilled "$ "
   ∧ echo_read host (trace w) "$ " = Fulfilled "nope -x"
   ∧ stringToArgv host "nope -x" = Fulfilled ["nope"; "-x"]
   ∧ minimist host ["-x"] = Fulfilled {| positional := ["-x"]; named := [] |})
  ∧ trace (repl_pass host w).1 =
      [EchoRead "$ "; ConsoleError (TypeError "Command Not Found: nope");
       EchoPrintln "Command Not Found: nope"].
Proof.
  intros host w.
  assert (H0 : "nope" ≠ "") by done.
  assert (H1 : Map_has "nope" (commands w) = false) by reflexivity.
  assert (H2 : prompt w = Fulfilled "$ ") by reflexivity.
  assert (H3 : echo_read host (trace w) "$ " = Fulfilled "nope -x")
    by reflexivity.
  assert (H4 : stringToArgv host "nope -x" = Fulfilled ["nope"; "-x"])
    by reflexivity.
  assert (H5 : minimist host ["-x"] =
               Fulfilled {| positional := ["-x"]; named := [] |})
    by reflexivity.
  split; [by split_and!|].
  pose proof (run_unknown_command_not_found host "nope" [] ["-x"] no_flags _
                w "$ " "nope -x" H0 H1 H2 H3 H4 H5)
    as (_ & _ & _ & Htrace & _).
  exact Htrace.
Defined.

Lemma autoComplete_args_delegates_witness :
  (1 ≤ 2)%Z
  ∧ autoCompleteCommands 2 ["echo"; "on"; "o"]
      (command "echo" gen_abc (Some echo_provider) XtermJSShell_new)
    = ["on"; "o"].
Proof.
  assert (H : (1 ≤ 2)%Z) by lia.
  split; [exact H|].
  exact (autoComplete_args_delegates 2 "echo" ["on"; "o"]
           (command "echo" gen_abc (Some echo_provider) XtermJSShell_new) H).
Defined.

Lemma run_drains_sequence_in_order_witness :
  let host := plain_host [] in
  let w := register_all [reg "gen" gen_abc] XtermJSShell_new in
  ("gen" ≠ "" ∧ Map_get "gen" (commands w) = Some
     {| command_name := "gen"; fn := gen_abc; autocomplete := None |})
  ∧ trace (run host (Some "gen") [] no_flags w).1 =
      [HandlerCall "gen" 0 [] no_flags;
       TermWrite "a"; TermWrite "b"; TermWrite "c"].
Proof.
  intros host w.
  assert (Hname : "gen" ≠ "") by done.
  assert (Hget : Map_get "gen" (commands w) = Some
     {| command_name := "gen"; fn := gen_abc; autocomplete := None |})
    by reflexivity.
  split; [by split|].
  pose proof (run_drains_sequence_in_order host "gen" [] no_flags w _ _
                (yields ["a"; "b"; "c"]) Hname Hget eq_refl) as [_ H].
  destruct (H ["a"; "b"; "c"] eq_refl eq_refl) as (_ & Htrace & _).
  exact Htrace.
Defined.

Lemma attach_detach_idempotent_witness :
  (attached (detach XtermJSShell_new) = false
   ∧ attached XtermJSShell_new = true)
  ∧ detach (detach XtermJSShell_new) = detach XtermJSShell_new
  ∧ attach XtermJSShell_new = XtermJSShell_new
  ∧ echo_after true
      (trace (perform_all (plain_host [])
                [Detach; Detach; Attach; Attach; Detach] XtermJSShell_new))
    = Some false.
Proof.
  assert (Hd : attached (detach XtermJSShell_new) = false) by reflexivity.
  assert (Ha : attached XtermJSShell_new = true) by reflexivity.
  split; [by split|].
  pose proof (attach_detach_idempotent (plain_host [])
                (detach XtermJSShell_new) XtermJSShell_new
                [Detach; Detach; Attach; Attach; Detach] Hd Ha)
    as (H1 & H2 & _ & _ & _ & _ & H3).
  split_and!; [exact H1 | exact H2 | exact H3].
Defined.

(* ===================================================================== *)
(** * Further properties of the module *)

(** ** The registry and auto-completion *)

Lemma Map_keys_set {V : Type} (k : string) (v : V) (m : list (string * V)) :
  Map_keys (Map_set k v m) = add_name (Map_keys m) k.
Proof.
  unfold Map_keys. induction m as [|[k' v'] m IH].
  - unfold add_name. simpl.
    destruct (decide (k ∈ [])) as [Hin|_]; [by apply elem_of_nil in Hin | done].
  - cbn [Map_set]. destruct (decide (k = k')) as [->|Hne].
    + unfold add_name. cbn [fmap list_fmap fst].
      destruct (decide (k' ∈ k' :: m.*1)) as [_|Hout]; [done|].
      exfalso. apply Hout. by left.
    + cbn [fmap list_fmap fst]. cbn [fmap list_fmap fst] in IH. rewrite IH.
      unfold add_name.
      destruct (decide (k ∈ m.*1)) as [Hin|Hout];
        destruct (decide (k ∈ k' :: m.*1)) as [Hin'|Hout']; try done.
      * exfalso. apply Hout'. by right.
      * apply elem_of_cons in Hin' as [?|?]; done.
Qed.

(** X1. The names that auto-completion offers at index 0 are the names of
    the registrations in the order in which each was first registered:
    registering a bound name again does not move it. *)
Theorem names_in_order_of_first_registration
    (tokens : list string) (rs : list Registration) (w : Shell) :
  autoCompleteCommands 0 tokens (register_all rs w) =
  foldl add_name (Map_keys (commands w)) (reg_name <$> rs).
Proof.
  change (autoCompleteCommands 0 tokens (register_all rs w))
    with (Map_keys (commands (register_all rs w))).
  revert w. induction rs as [|r rs IH]; intros w; [done|].
  change (register_all (r :: rs) w) with (register_all rs (register w r)).
  rewrite IH, fmap_cons. cbn [foldl]. f_equal.
  unfold register. rewrite commands_command. apply Map_keys_set.
Qed.

Lemma has_command name other f ac w :
  Map_has other (commands (command name f ac w)) =
  if decide (other = name) then true else Map_has other (commands w).
Proof.
  rewrite commands_command. unfold Map_has.
  destruct (decide (other = name)) as [->|Hne].
  - by rewrite Map_get_set_eq.
  - rewrite Map_get_set_ne; [done | congruence].
Qed.

(** [run] passes its two guards for exactly the non-empty names that were
    registered. *)
Lemma dispatches_register_all
    (name : string) (rs : list Registration) :
  dispatches (Some name) (register_all rs XtermJSShell_new) = true
  ↔ name ≠ "" ∧ name ∈ reg_name <$> rs.
Proof.
  assert (Hhas : ∀ w, Map_has name (commands (register_all rs w)) = true
                      ↔ Map_has name (commands w) = true
                        ∨ name ∈ reg_name <$> rs).
  { induction rs as [|r rs IH]; intros w.
    - simpl. split; [by left | intros [?|?%elem_of_nil]; done].
    - change (register_all (r :: rs) w)
        with (register_all rs (register w r)).
      rewrite IH. unfold register. rewrite has_command.
      rewrite fmap_cons, elem_of_cons.
      destruct (decide (name = reg_name r)) as [Heq|Hne]; [|tauto].
      split; intros _; [by right; left | by left]. }
  unfold dispatches. rewrite andb_true_iff, negb_true_iff, Hhas.
  rewrite bool_decide_eq_false.
  split; intros [Hname Hin]; (split; [done|]).
  - by destruct Hin as [Hin|Hin].
  - by right.
Qed.

(** X3. Auto-completion of arguments follows the registry: right after
    [command(name, fn, provider)] the arguments of [name] are completed
    by that provider, or by nothing when none was given, whatever was
    registered before; the completion of every other command is as
    before; and with no token at all nothing is offered. *)
Theorem autoComplete_follows_registration
    (k : Z) (name other : string) (args : list string) (f : Command)
    (ac : option AutocompleteProvider) (w : Shell)
    (Hk : k ≠ 0%Z) (Hother : other ≠ name) :
  autoCompleteCommands k (name :: args) (command name f ac w) =
    match ac with Some P => P (k - 1)%Z args | None => [] end
  ∧ autoCompleteCommands k (other :: args) (command name f ac w) =
      autoCompleteCommands k (other :: args) w
  ∧ autoCompleteCommands k [] (command name f ac w) = [].
Proof.
  unfold autoCompleteCommands. cbn [head tail].
  destruct (Z.eqb_spec k 0) as [?|_]; [done|].
  split_and!.
  - rewrite has_command, decide_True by done.
    by rewrite commands_command, Map_get_set_eq.
  - rewrite has_command, decide_False by done.
    rewrite commands_command, Map_get_set_ne by congruence. done.
  - done.
Qed.

Section Further.

Variable E : Collaborators.

(** ** Contexts *)

(** X4. While a context is live it is a transparent proxy: each of its
    seven I/O methods does to the session, and answers, what the
    session's method of the same name does. *)
Theorem live_context_is_transparent
    (shell : nat) (m : Method) (w : Shell)
    (Hlive : subshells w !! shell = Some false)
    (Hm1 : m ≠ M_readStream) (Hm2 : m ≠ M_destroy) :
  SubShell_call E shell m w = XtermJSShell_call E m w.
Proof.
  assert (Hd : is_destroyed shell w = false)
    by (unfold is_destroyed; by rewrite Hlive).
  unfold SubShell_call. rewrite Hlive.
  destruct m; try done;
    unfold SubShell_readChar, SubShell_readLine, SubShell_abortRead,
      SubShell_print, SubShell_printLine, SubShell_printList, SubShell_clear,
      checkDestroyed; by rewrite Hd.
Qed.

Lemma moves_subshells_mono w w' c :
  moves w w' → subshells w !! c = Some true → subshells w' !! c = Some true.
Proof.
  intros [w1 w2 Hc|s w1 w2 Hc|w1|c' w1] Hd.
  - by rewrite (calm_subshells _ _ Hc).
  - by rewrite (calm_subshells _ _ Hc), subshells_listen.
  - simpl. by apply lookup_app_l_Some.
  - simpl. destruct (decide (c' = c)) as [->|Hne].
    + apply list_lookup_insert_eq. by apply lookup_lt_Some in Hd.
    + by rewrite list_lookup_insert_ne.
Qed.

Lemma toggles_subshells w w' c :
  rtc toggles w w' →
  length (subshells w) ≤ length (subshells w')
  ∧ (subshells w !! c = Some true → subshells w' !! c = Some true).
Proof.
  induction 1 as [|w1 w2 w3 Hstep _ [IHl IHd]]; [done|].
  assert (length (subshells w1) ≤ length (subshells w2)
          ∧ (subshells w1 !! c = Some true → subshells w2 !! c = Some true))
    as [Hl Hd].
  { destruct Hstep as [? ? Hm|wx|wx].
    - split; [by apply moves_subshells_length | by apply moves_subshells_mono].
    - unfold detach. by destruct (attached wx).
    - unfold attach. by destruct (attached wx). }
  split; [lia | auto].
Qed.

(** X5. Destruction is permanent and contexts are never discarded:
    whatever happens to the session afterwards, a destroyed context stays
    destroyed, so that [print] on it still fails with "Terminal
    destroyed". *)
Theorem destroyed_is_permanent
    (acts : list Activity) (w : Shell) (shell : nat) (msg : string)
    (Hd : subshells w !! shell = Some true) :
  let w' := perform_all E acts w in
  subshells w' !! shell = Some true
  ∧ length (subshells w) ≤ length (subshells w')
  ∧ SubShell_call E shell (M_print msg) w' =
      (w', Threw (Error "Error" "Terminal destroyed")).
Proof.
  intros w'.
  destruct (toggles_subshells w w' shell (toggles_perform_all E acts w))
    as [Hl Hmono].
  specialize (Hmono Hd). split_and!; [done | done |].
  unfold SubShell_call, SubShell_print, checkDestroyed, is_destroyed.
  by rewrite Hmono.
Qed.

Lemma do_action_subshells_length a w :
  length (subshells (do_action E a w).1) = length (subshells w).
Proof.
  destruct a as [c m| | |]; simpl.
  - assert (Hm : m = M_destroy ∨ m ≠ M_destroy)
      by (destruct m; (by left) || (by right)).
    destruct Hm as [->|Hm].
    + unfold SubShell_call. destruct (subshells w !! c); [|done]. simpl.
      apply length_insert.
    + by rewrite (calm_subshells _ _ (calm_SubShell_call E c m w Hm)).
  - by rewrite gen_next_subshells.
  - by rewrite (calm_subshells _ _ (calm_gen_return _ w)).
  - unfold term_data. by rewrite (calm_subshells _ _ (calm_foldl_push _ _ w)).
Qed.

Lemma exec_subshells_length {R : Type} (p : Script R) w :
  length (subshells (exec E p w).1) = length (subshells w).
Proof.
  revert w. induction p as [r|e|a k IH]; intros w; simpl; try done.
  pose proof (do_action_subshells_length a w) as Ha.
  destruct (do_action E a w) as [w' r]. simpl in Ha. by rewrite IH.
Qed.

Lemma drain_subshells_length shell g w :
  length (subshells (drain E shell g w).1) = length (subshells w).
Proof.
  revert w. induction g as [|e|data rest IH|a k IH]; intros w; simpl; try done.
  - by rewrite IH, SubShell_print_subshells.
  - pose proof (do_action_subshells_length a w) as Ha.
    destruct (do_action E a w) as [w' r]. simpl in Ha. by rewrite IH.
Qed.

Lemma basic_trace_extends w w' : basic w w' → ∃ tr, trace w' = trace w ++ tr.
Proof.
  intros [? ? Ht|e ? ? _ Ht|s ? ? Ht].
  - exists []. by rewrite app_nil_r.
  - by exists [e].
  - rewrite Ht, trace_remove. by eexists.
Qed.

Lemma internal_trace_extends w w' :
  internal w w' → ∃ tr, trace w' = trace w ++ tr.
Proof.
  assert (Hcalm : ∀ w w', calm w w' → ∃ tr, trace w' = trace w ++ tr).
  { induction 1 as [|w1 w2 w3 Hstep _ [tr IH]].
    - exists []. by rewrite app_nil_r.
    - destruct (basic_trace_extends _ _ Hstep) as [tr' Htr'].
      exists (tr' ++ tr). by rewrite IH, Htr', app_assoc. }
  induction 1 as [|w1 w2 w3 Hstep _ [tr IH]].
  - exists []. by rewrite app_nil_r.
  - assert (∃ tr', trace w2 = trace w1 ++ tr') as [tr' Htr'].
    { destruct Hstep as [? ? Hc|s ? ? Hc|?|? ?].
      - by apply Hcalm.
      - destruct (Hcalm _ _ Hc) as [tr0 Htr0].
        rewrite Htr0, trace_listen. rewrite <- app_assoc. by eexists.
      - exists []. simpl. by rewrite app_nil_r.
      - exists []. simpl. by rewrite app_nil_r. }
    exists (tr' ++ tr). by rewrite IH, Htr', app_assoc.
Qed.

(** What [run] does once it has found the entry: everything happens
    after the context is made and the handler is called, and no context
    is added or removed meanwhile. *)
Lemma run_found name args flags w entry :
  name ≠ "" → Map_get name (commands w) = Some entry →
  let w1 := log (HandlerCall name (length (subshells w)) args flags)
              (SubShell_new w) in
  internal w1 (run E (Some name) args flags w).1
  ∧ length (subshells (run E (Some name) args flags w).1) =
      length (subshells w1).
Proof.
  intros Hname Hget w1. unfold run.
  rewrite (falsy_name _ Hname), (Map_has_Some _ _ _ Hget), Hget. simpl.
  fold w1. set (shell := length (subshells w)).
  pose proof (internal_exec E (fn entry shell args flags) w1) as H2.
  pose proof (exec_subshells_length (fn entry shell args flags) w1) as L2.
  destruct (exec E (fn entry shell args flags) w1) as [w2 [result|e]];
    simpl in H2, L2; [|done].
  destruct result as [|p|g|]; simpl; try done.
  - pose proof (internal_exec E p w2) as H3.
    pose proof (exec_subshells_length p w2) as L3.
    destruct (exec E p w2) as [w3 [[]|e]]; simpl in *.
    + split; [apply internal_then_destroy; by eapply rtc_trans|].
      rewrite length_insert. congruence.
    + split; [by eapply rtc_trans | congruence].
  - pose proof (internal_drain E shell g w2) as H3.
    pose proof (drain_subshells_length shell g w2) as L3.
    destruct (drain E shell g w2) as [w3 [[]|e]]; simpl in *.
    + split; [apply internal_then_destroy; by eapply rtc_trans|].
      rewrite length_insert. congruence.
    + split; [by eapply rtc_trans | congruence].
  - split; [by apply internal_then_destroy|].
    by rewrite length_insert.
Qed.

Lemma dispatches_Some cmd w :
  dispatches cmd w = true →
  ∃ name entry, cmd = Some name ∧ name ≠ ""
                ∧ Map_get name (commands w) = Some entry.
Proof.
  destruct cmd as [name|]; [|done]. unfold dispatches, Map_has.
  intros [Hn Hh]%andb_prop. apply negb_true_iff in Hn.
  apply bool_decide_eq_false in Hn.
  destruct (Map_get name (commands w)) as [entry|] eqn:Hget; [|done].
  by exists name, entry.
Qed.

(** X6. One invocation, one context: [run] makes exactly one new context
    when the command is set and bound, and calls the handler on it before
    anything else; otherwise (no command, the empty string, an unbound
    name) it leaves the session as it was. No handler can add or remove
    a context. *)
Theorem run_creates_one_context
    (cmd : option string) (args : list string) (flags : Parsed) (w : Shell) :
  let w' := (run E cmd args flags w).1 in
  length (subshells w') =
    length (subshells w) + (if dispatches cmd w then 1 else 0)
  ∧ (dispatches cmd w = false → w' = w)
  ∧ (dispatches cmd w = true →
       ∃ name rest,
         cmd = Some name
         ∧ trace w' =
             trace w ++
               HandlerCall name (length (subshells w)) args flags :: rest).
Proof.
  intros w'. destruct (dispatches cmd w) eqn:Hd.
  - destruct (dispatches_Some _ _ Hd) as (name & entry & -> & Hname & Hget).
    destruct (run_found name args flags w entry Hname Hget) as [Hint Hlen].
    split_and!; [|done|].
    + unfold w'. rewrite Hlen. simpl. by rewrite length_app.
    + intros _. destruct (internal_trace_extends _ _ Hint) as [rest Hrest].
      exists name, rest. split; [done|]. unfold w'. rewrite Hrest. simpl.
      by rewrite <- app_assoc.
  - assert (Hw : w' = w).
    { unfold w', run. destruct cmd as [name|]; [|done].
      unfold dispatches in Hd. unfold falsy.
      destruct (bool_decide (name = "")); [done|]. simpl in Hd.
      by rewrite Hd. }
    rewrite Hw. split_and!; [lia | done | done].
Qed.

(** ** The loop *)



(** X8. An empty line is skipped. When the tokenizer finds no token, or
    an empty first token, and the flag parser succeeds on the rest, the
    pass calls no handler, makes no context and prints nothing: it has
    only asked for the line, and the loop goes on. *)
Theorem empty_line_is_skipped
    (w : Shell) (p line : string) (argv : list string) (parsed : Parsed)
    (Hprompt : prompt w = Fulfilled p)
    (Hread : echo_read E (trace w) p = Fulfilled line)
    (Htok : stringToArgv E line = Fulfilled argv)
    (Hempty : head argv = None ∨ head argv = Some "")
    (Hparse : minimist E (tail argv) = Fulfilled parsed) :
  repl_pass E w = (log (EchoRead p) w, Again)
  ∧ ∀ n, repl E (S n) w = repl E n (log (EchoRead p) w).
Proof.
  assert (Hpass : repl_pass E w = (log (EchoRead p) w, Again)).
  { unfold repl_pass. rewrite Hprompt, Hread, Htok, Hparse.
    by destruct Hempty as [->| ->]. }
  split; [done|]. intros n. simpl. by rewrite Hpass.
Qed.


























(** X10. A handler that returns nothing. When the handler is an ordinary
    function that returns [undefined], everything it did stays done, but
    [run] then fails on [result.then] with a [TypeError] and does not
    reach [destroy]; the loop logs that error, prints its message and
    goes on. *)
Theorem handler_returning_nothing_is_an_error
    (w w2 : Shell) (p line name : string) (rest : list string)
    (parsed : Parsed) (entry : Entry)
    (Hprompt : prompt w = Fulfilled p)
    (Hread : echo_read E (trace w) p = Fulfilled line)
    (Htok : stringToArgv E line = Fulfilled (name :: rest))
    (Hparse : minimist E rest = Fulfilled parsed)
    (Hname : name ≠ "")
    (Hget : Map_get name (commands w) = Some entry)
    (Hfn : exec E (fn entry (length (subshells w)) (positional parsed) parsed)
             (log (HandlerCall name (length (subshells w))
                     (positional parsed) parsed)
                (SubShell_new (log (EchoRead p) w)))
           = (w2, Fulfilled Nullish)) :
  ∃ msg,
    run E (Some name) (positional parsed) parsed (log (EchoRead p) w) =
      (w2, Rejected (TypeError msg))
    ∧ repl_pass E w =
        (log (EchoPrintln msg) (log (ConsoleError (TypeError msg)) w2), Again).
Proof.
  exists "Cannot read properties of undefined".
  assert (Hrun : run E (Some name) (positional parsed) parsed
                   (log (EchoRead p) w) =
                 (w2, Rejected (TypeError "Cannot read properties of undefined"))).
  { unfold run.
    rewrite (falsy_name _ Hname).
    change (commands (log (EchoRead p) w)) with (commands w).
    rewrite (Map_has_Some _ _ _ Hget), Hget. simpl.
    simpl in Hfn. by rewrite Hfn. }
  split; [done|].
  unfold repl_pass. rewrite Hprompt, Hread, Htok. cbn [head tail].
  by rewrite Hparse, Hrun.
Qed.

(** ** Raw streams and the listeners of the terminal *)

Lemma listen_inv_same w w' :
  listeners w' = listeners w → streams w' = streams w →
  listen_inv w → listen_inv w'.
Proof. unfold listen_inv. by intros -> ->. Qed.

Lemma others_ok_same s w w' :
  listeners w' = listeners w → streams w' = streams w →
  others_ok s w → others_ok s w'.
Proof. unfold others_ok. by intros -> ->. Qed.

Lemma listen_inv_others s w : listen_inv w → others_ok s w.
Proof. intros [Hnd Hl]. split; [done|]. intros s0 _. apply Hl. Qed.

Lemma listen_inv_in_range s w :
  listen_inv w → s ∈ listeners w → is_Some (streams w !! s).
Proof. intros [_ Hl] Hin. apply Hl in Hin as (st & Hst & _). by exists st. Qed.

(** Writing a running generator that listens. *)
Lemma put_active s st w :
  others_ok s w → s ∈ listeners w → is_Some (streams w !! s) →
  active (phase st) = true → listen_inv (put_stream s st w).
Proof.
  intros [Hnd Hl] Hin Hs Hact. split; [done|]. intros s0. simpl.
  destruct (decide (s0 = s)) as [->|Hne].
  - rewrite list_lookup_insert_eq by by apply lookup_lt_is_Some.
    split; [by exists st | done].
  - rewrite list_lookup_insert_ne by done. by apply Hl.
Qed.

(** Writing a generator that does not run and does not listen. *)
Lemma put_inactive s st w :
  others_ok s w → s ∉ listeners w →
  active (phase st) = false → listen_inv (put_stream s st w).
Proof.
  intros [Hnd Hl] Hout Hact. split; [done|]. intros s0. simpl.
  destruct (decide (s0 = s)) as [->|Hne].
  - split; [done|]. intros (st' & Hst' & Hact').
    apply list_lookup_insert_Some in Hst' as [(_ & <- & _)|[? _]]; [|done].
    congruence.
  - rewrite list_lookup_insert_ne by done. by apply Hl.
Qed.

Lemma listen_inv_finish s st w : others_ok s w → listen_inv (finish s st w).
Proof.
  intros [Hnd Hl]. unfold finish.
  apply put_inactive; [|rewrite listeners_remove; apply not_in_filter_ne|done].
  split.
  - rewrite listeners_remove. by apply NoDup_filter.
  - intros s0 Hne. rewrite listeners_remove, streams_remove.
    rewrite list_elem_of_filter. rewrite <- (Hl s0 Hne). tauto.
Qed.

Lemma listen_inv_resume s st data w :
  others_ok s w → s ∈ listeners w → is_Some (streams w !! s) →
  listen_inv (resume s st data w).1.
Proof.
  intros Hok Hin Hs. unfold resume.
  destruct (is_destroyed (owner st) w); simpl.
  - by apply listen_inv_finish.
  - by apply put_active.
Qed.

Lemma listen_inv_pull s st w :
  others_ok s w → s ∈ listeners w → is_Some (streams w !! s) →
  listen_inv (pull s st w).1.
Proof.
  intros Hok Hin Hs. unfold pull. destruct (buffer st); simpl.
  - by apply put_active.
  - by apply listen_inv_resume.
Qed.

Lemma listen_inv_active s st w :
  listen_inv w → streams w !! s = Some st →
  (s ∈ listeners w ↔ active (phase st) = true).
Proof.
  intros [_ Hl] Hs. rewrite Hl. split.
  - intros (st' & Hst' & Hact). congruence.
  - intros Hact. by exists st.
Qed.

Lemma listen_inv_gen_next s w : listen_inv w → listen_inv (gen_next s w).1.
Proof.
  intros Hw. unfold gen_next. destruct (streams w !! s) as [st|] eqn:Hs; [|done].
  pose proof (listen_inv_active s st w Hw Hs) as Hact.
  destruct (phase st) eqn:Hph; simpl in *.
  - apply listen_inv_pull.
    + destruct Hw as [Hnd Hl]. split.
      * rewrite listeners_listen. apply NoDup_app. split_and!; [done| |].
        -- intros x Hx ->%list_elem_of_singleton. apply Hact in Hx. done.
        -- apply NoDup_singleton.
      * intros s0 Hne. rewrite listeners_listen, streams_listen.
        rewrite elem_of_app, list_elem_of_singleton. rewrite <- Hl. tauto.
    + rewrite listeners_listen. apply elem_of_app. right. by left.
    + rewrite streams_listen. by rewrite Hs.
  - apply put_active; [by apply listen_inv_others | by apply Hact | by rewrite Hs
                      | simpl; by rewrite Hph].
  - apply listen_inv_pull;
      [by apply listen_inv_others | by apply Hact | by rewrite Hs].
  - done.
Qed.

Lemma listen_inv_gen_return s w : listen_inv w → listen_inv (gen_return s w).1.
Proof.
  intros Hw. unfold gen_return.
  destruct (streams w !! s) as [st|] eqn:Hs; [|done].
  pose proof (listen_inv_active s st w Hw Hs) as Hact.
  destruct (phase st) eqn:Hph; simpl in *.
  - apply put_inactive; [by apply listen_inv_others| |done].
    intros Hin. apply Hact in Hin. done.
  - apply put_active; [by apply listen_inv_others | by apply Hact | by rewrite Hs
                      | simpl; by rewrite Hph].
  - by apply listen_inv_finish, listen_inv_others.
  - done.
Qed.

Lemma listen_inv_settle_all s rs w :
  listen_inv w → listen_inv (settle_all s rs w).
Proof.
  destruct (settle_all_fields s rs w) as (Hl & _ & Hs).
  by apply listen_inv_same.
Qed.

Lemma listen_inv_serve rs s st w :
  others_ok s w → s ∈ listeners w → is_Some (streams w !! s) →
  active (phase st) = true → listen_inv (serve rs s st w).
Proof.
  revert st w. induction rs as [|[] rs IH]; intros st w Hok Hin Hs Hact; simpl.
  - by apply put_active.
  - destruct (buffer st) as [|data rest]; [by apply put_active|].
    destruct (is_destroyed (owner st) w).
    + apply listen_inv_settle_all.
      apply (listen_inv_same (finish s (set_buffer rest st) w)); [done..|].
      by apply listen_inv_finish.
    + by apply IH.
  - apply listen_inv_settle_all.
    apply (listen_inv_same (finish s st w)); [done..|].
    by apply listen_inv_finish.
Qed.

Lemma listen_inv_push data w s : listen_inv w → listen_inv (push data w s).
Proof.
  intros Hw. unfold push. destruct (streams w !! s) as [st|] eqn:Hs; [|done].
  pose proof (listen_inv_active s st w Hw Hs) as Hact.
  destruct (phase st) eqn:Hph; simpl in *; try done.
  - destruct (is_destroyed (owner st) w).
    + apply listen_inv_settle_all.
      apply (listen_inv_same (finish s st w)); [done..|].
      by apply listen_inv_finish, listen_inv_others.
    + apply listen_inv_serve;
        [by apply (others_ok_same s w), listen_inv_others
        | by apply Hact | simpl; by rewrite Hs | done].
  - apply put_active; [by apply listen_inv_others | by apply Hact | by rewrite Hs
                      | simpl; by rewrite Hph].
Qed.

Lemma listen_inv_foldl_push data l w :
  listen_inv w → listen_inv (foldl (push data) w l).
Proof.
  revert w. induction l as [|s l IH]; intros w Hw; simpl; [done|].
  by apply IH, listen_inv_push.
Qed.

Lemma listen_inv_readStream shell w :
  listen_inv w → listen_inv (readStream shell w).1.
Proof.
  intros [Hnd Hl]. split; [done|]. intros s. simpl. rewrite Hl. split.
  - intros (st & Hst & Hact). exists st. split; [|done].
    by apply lookup_app_l_Some.
  - intros (st & Hst & Hact).
    apply lookup_app_Some in Hst as [Hst|[_ Hst]]; [by exists st|].
    apply list_lookup_singleton_Some in Hst as [_ <-]. done.
Qed.

Lemma listen_inv_SubShell_call shell m w :
  listen_inv w → listen_inv (SubShell_call E shell m w).1.
Proof.
  intros Hw. unfold SubShell_call. destruct (subshells w !! shell); [|done].
  destruct m; simpl;
    unfold SubShell_readChar, SubShell_readLine, SubShell_abortRead,
      SubShell_print, SubShell_printLine, SubShell_printList, SubShell_clear;
    try (by destruct (checkDestroyed shell w)).
  by apply listen_inv_readStream.
Qed.

Lemma listen_inv_do_action a w : listen_inv w → listen_inv (do_action E a w).1.
Proof.
  intros Hw. destruct a; simpl.
  - by apply listen_inv_SubShell_call.
  - by apply listen_inv_gen_next.
  - by apply listen_inv_gen_return.
  - by apply listen_inv_foldl_push.
Qed.

Lemma listen_inv_exec {R : Type} (p : Script R) w :
  listen_inv w → listen_inv (exec E p w).1.
Proof.
  revert w. induction p as [r|e|a k IH]; intros w Hw; simpl; try done.
  pose proof (listen_inv_do_action a w Hw) as Ha.
  destruct (do_action E a w) as [w' r]. by apply IH.
Qed.

Lemma listen_inv_drain shell g w :
  listen_inv w → listen_inv (drain E shell g w).1.
Proof.
  revert w. induction g as [|e|data rest IH|a k IH]; intros w Hw; simpl;
    try done.
  - apply IH. unfold SubShell_print. by destruct (checkDestroyed shell w).
  - pose proof (listen_inv_do_action a w Hw) as Ha.
    destruct (do_action E a w) as [w' r]. by apply IH.
Qed.

Lemma listen_inv_run cmd args flags w :
  listen_inv w → listen_inv (run E cmd args flags w).1.
Proof.
  intros Hw. unfold run. destruct cmd as [name|]; [|done].
  destruct (falsy (Some name)); [done|].
  destruct (negb (Map_has name (commands w))); [done|].
  destruct (Map_get name (commands w)) as [entry|]; [|done].
  set (shell := length (subshells w)).
  set (w1 := log (HandlerCall name shell args flags) (SubShell_new w)).
  assert (H1 : listen_inv w1) by done.
  pose proof (listen_inv_exec (fn entry shell args flags) w1 H1) as H2.
  destruct (exec E (fn entry shell args flags) w1) as [w2 [result|e]];
    cbn [fst] in H2 |- *; [|done].
  destruct result as [|p|g|]; cbn [fst]; try done.
  - pose proof (listen_inv_exec p w2 H2) as H3.
    by destruct (exec E p w2) as [w3 [[]|e]].
  - pose proof (listen_inv_drain shell g w2 H2) as H3.
    by destruct (drain E shell g w2) as [w3 [[]|e]].
Qed.

Lemma listen_inv_repl_pass w : listen_inv w → listen_inv (repl_pass E w).1.
Proof.
  intros Hw. unfold repl_pass. destruct (prompt w) as [p|e]; [|done].
  destruct (echo_read E (trace w) p) as [line|e]; [|done].
  destruct (stringToArgv E line) as [argv|e]; [|done].
  destruct (minimist E (tail argv)) as [parsed|e]; [|done].
  assert (H1 : listen_inv (log (EchoRead p) w)) by done.
  pose proof (listen_inv_run (head argv) (positional parsed) parsed _ H1) as H2.
  by destruct (run E (head argv) (positional parsed) parsed
                 (log (EchoRead p) w)) as [w2 [[]|[e| |v]]].
Qed.

Lemma listen_inv_perform w a : listen_inv w → listen_inv (perform E w a).
Proof.
  intros Hw. destruct a; simpl.
  - unfold detach. by destruct (attached w).
  - unfold attach. by destruct (attached w).
  - unfold register, command. by destruct (Map_has _ _).
  - by destruct m.
  - done.
  - by apply listen_inv_do_action.
  - by apply listen_inv_run.
  - by apply listen_inv_repl_pass.
Qed.

Lemma listen_inv_perform_all acts w :
  listen_inv w → listen_inv (perform_all E acts w).
Proof.
  revert w. induction acts as [|a acts IH]; intros w Hw; simpl; [done|].
  by apply IH, listen_inv_perform.
Qed.

Lemma listen_inv_new : listen_inv XtermJSShell_new.
Proof.
  split; [apply NoDup_nil_2|]. intros s. split.
  - by intros ?%elem_of_nil.
  - by intros (st & Hst & _).
Qed.

Lemma put_stream_other s s' st w :
  s ≠ s' → streams (put_stream s' st w) !! s = streams w !! s.
Proof. intros Hne. unfold put_stream. by apply list_lookup_insert_ne. Qed.

Lemma finish_other s s' st w :
  s ≠ s' → streams (finish s' st w) !! s = streams w !! s.
Proof.
  intros Hne. unfold finish. rewrite put_stream_other by done.
  by rewrite streams_remove.
Qed.

Lemma settle_all_streams s rs w : streams (settle_all s rs w) = streams w.
Proof. by destruct (settle_all_fields s rs w) as (_ & _ & ->). Qed.

Lemma serve_other rs s s' st w :
  s ≠ s' → streams (serve rs s' st w) !! s = streams w !! s.
Proof.
  intros Hne. revert st w.
  induction rs as [|[] rs IH]; intros st w; cbn [serve].
  - by apply put_stream_other.
  - destruct (buffer st) as [|data rest]; [by apply put_stream_other|].
    destruct (is_destroyed (owner st) w).
    + rewrite settle_all_streams.
      change (streams (log (Delivered s' IterDone)
                         (finish s' (set_buffer rest st) w)))
        with (streams (finish s' (set_buffer rest st) w)).
      by apply finish_other.
    + by rewrite IH.
  - rewrite settle_all_streams.
    change (streams (log (Delivered s' IterDone) (finish s' st w)))
      with (streams (finish s' st w)).
    by apply finish_other.
Qed.

(** [push] of one generator writes no other generator. *)
Lemma push_other data s s' w :
  s ≠ s' → streams (push data w s') !! s = streams w !! s.
Proof.
  intros Hne. unfold push. destruct (streams w !! s') as [st|]; [|done].
  destruct (phase st); try done.
  - destruct (is_destroyed (owner st) w).
    + rewrite settle_all_streams.
      change (streams (log (Delivered s' IterDone) (finish s' st w)))
        with (streams (finish s' st w)).
      by apply finish_other.
    + by rewrite serve_other.
  - by apply put_stream_other.
Qed.

Lemma foldl_push_other data s l w :
  s ∉ l → streams (foldl (push data) w l) !! s = streams w !! s.
Proof.
  revert w. induction l as [|s' l IH]; intros w Hout; simpl; [done|].
  apply not_elem_of_cons in Hout as [Hne Hout].
  rewrite IH by done. by apply push_other.
Qed.

(** A chunk that the terminal emits is queued, once, on a generator that
    stands at [yield]. *)
Lemma term_data_queues data s st w :
  listen_inv w → streams w !! s = Some st → phase st = SuspendedYield →
  streams (term_data data w) !! s = Some (set_buffer (buffer st ++ [data]) st).
Proof.
  intros Hw Hs Hph.
  assert (Hin : s ∈ listeners w).
  { apply (listen_inv_active s st w Hw Hs). by rewrite Hph. }
  destruct Hw as [Hnd _]. unfold term_data.
  revert Hnd Hin. generalize (listeners w) as l. intros l.
  revert w Hs. induction l as [|s' l IH]; intros w Hs Hnd Hin;
    [by apply elem_of_nil in Hin|].
  apply NoDup_cons in Hnd as [Hout Hnd]. simpl.
  destruct (decide (s' = s)) as [->|Hne].
  - rewrite foldl_push_other by done. unfold push. rewrite Hs, Hph. simpl.
    apply list_lookup_insert_eq. by apply lookup_lt_Some in Hs.
  - apply IH; [|done|].
    + rewrite push_other by done. done.
    + apply elem_of_cons in Hin as [?|?]; [congruence | done].
Qed.

(** X11. No leaked and no doubled subscription. In every state that a
    session reaches, the raw-input listeners of the terminal are exactly
    the streams that have been pulled and have not ended, each of them
    once; so input never reaches a stream that was not started or that
    has ended. *)
Theorem listeners_are_running_streams (acts : list Activity) :
  let w := perform_all E acts XtermJSShell_new in
  NoDup (listeners w)
  ∧ (∀ s, s ∈ listeners w
          ↔ ∃ st, streams w !! s = Some st
                  ∧ (phase st = Awaiting ∨ phase st = SuspendedYield))
  ∧ (∀ s st data,
       streams w !! s = Some st →
       phase st = SuspendedStart ∨ phase st = Completed →
       streams (term_data data w) !! s = Some st).
Proof.
  intros w.
  assert (Hw : listen_inv w) by apply listen_inv_perform_all, listen_inv_new.
  split_and!.
  - apply Hw.
  - intros s. destruct Hw as [_ Hl]. rewrite Hl.
    split; intros (st & Hs & Hact); exists st; (split; [done|]).
    + destruct (phase st); try done; [by left | by right].
    + by destruct Hact as [-> | ->].
  - intros s st data Hs Hph. unfold term_data.
    rewrite foldl_push_other; [done|].
    intros Hin. apply (listen_inv_active s st w Hw Hs) in Hin.
    by destruct Hph as [Hph|Hph]; rewrite Hph in Hin.
Qed.

Lemma subshells_term_data data w : subshells (term_data data w) = subshells w.
Proof. unfold term_data. apply calm_subshells, calm_foldl_push. Qed.

Lemma emit_all_queues chunks s st w :
  listen_inv w → streams w !! s = Some st → phase st = SuspendedYield →
  listen_inv (emit_all chunks w)
  ∧ streams (emit_all chunks w) !! s =
      Some (set_buffer (buffer st ++ chunks) st)
  ∧ subshells (emit_all chunks w) = subshells w.
Proof.
  revert st w. induction chunks as [|data rest IH]; intros st w Hw Hs Hph.
  - simpl. rewrite app_nil_r. split_and!; [done| |done].
    rewrite Hs. by destruct st.
  - change (emit_all (data :: rest) w) with (emit_all rest (term_data data w)).
    destruct (IH (set_buffer (buffer st ++ [data]) st) (term_data data w))
      as (Hinv & Hq & Hsub).
    + by apply listen_inv_foldl_push.
    + by apply term_data_queues.
    + done.
    + split_and!; [done| |].
      * rewrite Hq. simpl. by rewrite <- app_assoc.
      * by rewrite Hsub, subshells_term_data.
Qed.

(** Pulling a live generator that stands at [yield] hands out what is
    queued, oldest first. *)
Lemma pulls_queue s st w :
  streams w !! s = Some st → phase st = SuspendedYield →
  is_destroyed (owner st) w = false →
  (pulls (length (buffer st)) s w).2 = IterValue <$> buffer st
  ∧ (gen_next s (pulls (length (buffer st)) s w).1).2 = Unsettled.
Proof.
  remember (buffer st) as b eqn:Hb. revert st w Hb.
  induction b as [|data rest IH]; intros st w Hb Hs Hph Hlive.
  - simpl. split; [done|]. unfold gen_next, pull. by rewrite Hs, Hph, <- Hb.
  - set (st' := set_phase SuspendedYield (set_buffer rest st)).
    assert (Hnext : gen_next s w = (put_stream s st' w, IterValue data)).
    { unfold gen_next, pull, resume. rewrite Hs, Hph, <- Hb. simpl.
      by rewrite Hlive. }
    cbn [length pulls]. rewrite Hnext.
    destruct (IH st' (put_stream s st' w)) as [Hr Hn]; try done.
    + simpl. apply list_lookup_insert_eq. by apply lookup_lt_Some in Hs.
    + destruct (pulls (length rest) s (put_stream s st' w)) as [w2 rs].
      simpl in *. by rewrite Hr.
Qed.

(** X12. No chunk is lost or reordered. In a state where the listeners
    are the running streams, the chunks that the terminal emits while a
    stream stands at [yield] are queued on it behind what it holds; a
    live consumer that then pulls as many times gets exactly the queued
    chunks, oldest first, and its next pull waits. *)
Theorem chunks_reach_consumer_in_order
    (w : Shell) (s : nat) (st : Stream) (chunks : list string)
    (Hinv : listen_inv w)
    (Hs : streams w !! s = Some st)
    (Hph : phase st = SuspendedYield)
    (Hlive : is_destroyed (owner st) w = false) :
  let w1 := emit_all chunks w in
  let queued := buffer st ++ chunks in
  buffer <$> (streams w1 !! s) = Some queued
  ∧ (pulls (length queued) s w1).2 = IterValue <$> queued
  ∧ (gen_next s (pulls (length queued) s w1).1).2 = Unsettled.
Proof.
  intros w1 queued.
  destruct (emit_all_queues chunks s st w Hinv Hs Hph) as (_ & Hq & Hsub).
  fold w1 in Hq, Hsub. split; [by rewrite Hq|].
  apply (pulls_queue s (set_buffer (buffer st ++ chunks) st) w1); try done.
  unfold is_destroyed in *. simpl. by rewrite Hsub.
Qed.

Lemma trace_settle_all s rs w :
  trace (settle_all s rs w) =
  trace w ++ replicate (length rs) (Delivered s IterDone).
Proof.
  revert w. induction rs as [|r rs IH]; intros w; simpl.
  - by rewrite app_nil_r.
  - rewrite IH. simpl. by rewrite <- app_assoc.
Qed.

Lemma is_destroyed_listen c s w :
  is_destroyed c (listen s w) = is_destroyed c w.
Proof. unfold is_destroyed. by rewrite subshells_listen. Qed.

(** X13. The stream of a destroyed context hands out nothing more. No
    pull of it answers a chunk: a chunk that was already queued is
    dropped by the next pull, which ends the stream and attaches the line
    editor; and a chunk that the terminal pushes to it settles no pending
    pull with a value. *)
Theorem destroyed_stream_yields_nothing
    (w : Shell) (s : nat) (st : Stream)
    (Hs : streams w !! s = Some st)
    (Hd : is_destroyed (owner st) w = true) :
  (∀ d, (gen_next s w).2 ≠ IterValue d)
  ∧ (phase st = SuspendedYield → buffer st ≠ [] →
       (gen_next s w).2 = IterDone
       ∧ phase <$> (streams (gen_next s w).1 !! s) = Some Completed
       ∧ attached (gen_next s w).1 = true)
  ∧ (∀ data, ∃ tr,
       trace (push data w s) = trace w ++ tr
       ∧ ∀ d, Delivered s (IterValue d) ∉ tr).
Proof.
  split_and!.
  - intros d. unfold gen_next, pull, resume. rewrite Hs.
    destruct (phase st); try done.
    + destruct (buffer st); [done|]. simpl.
      by rewrite is_destroyed_listen, Hd.
    + destruct (buffer st); [done|]. simpl. by rewrite Hd.
  - intros Hph Hb. unfold gen_next, pull, resume. rewrite Hs, Hph.
    destruct (buffer st) as [|d rest]; [done|]. simpl. rewrite Hd.
    split_and!; [done| |apply attached_remove].
    unfold finish. simpl. rewrite list_lookup_insert_eq; [done|].
    rewrite streams_remove. by apply lookup_lt_Some in Hs.
  - intros data. unfold push. rewrite Hs.
    destruct (phase st).
    + exists []. split; [by rewrite app_nil_r | intros d ?%elem_of_nil; done].
    + rewrite Hd. eexists. split.
      * rewrite trace_settle_all. simpl. rewrite trace_remove.
        rewrite <- !app_assoc. reflexivity.
      * intros d Hin.
        repeat (apply elem_of_app in Hin as [Hin|Hin]
                || apply elem_of_cons in Hin as [Hin|Hin]);
          try done.
        -- destruct (attached w); [by apply elem_of_nil in Hin|].
           apply list_elem_of_singleton in Hin. done.
        -- by apply elem_of_nil in Hin.
        -- apply elem_of_replicate in Hin as [? _]. done.
    + exists []. split; [by rewrite app_nil_r | intros d ?%elem_of_nil; done].
    + exists []. split; [by rewrite app_nil_r | intros d ?%elem_of_nil; done].
Qed.

(** X14. [readStream] is lazy. Calling it on a context only makes a new
    generator, distinct from all earlier ones, and touches neither the
    terminal nor the line editor nor any other stream; returning that
    generator before its first pull ends it without ever subscribing or
    detaching, after which its pulls answer "done" and input does not
    reach it. *)
Theorem readStream_is_lazy
    (shell : nat) (w : Shell) (data : string)
    (Hshell : is_Some (subshells w !! shell)) :
  let s := length (streams w) in
  let w1 := (SubShell_call E shell M_readStream w).1 in
  let w2 := (gen_return s w1).1 in
  (SubShell_call E shell M_readStream w).2 = Generator s
  ∧ streams w1 =
      streams w ++ [{| owner := shell; phase := SuspendedStart;
                       buffer := []; requests := [] |}]
  ∧ (trace w1 = trace w ∧ attached w1 = attached w
     ∧ listeners w1 = listeners w)
  ∧ (gen_return s w1).2 = IterDone
  ∧ (trace w2 = trace w ∧ attached w2 = attached w
     ∧ listeners w2 = listeners w)
  ∧ gen_next s w2 = (w2, IterDone)
  ∧ push data w2 s = w2.
Proof.
  intros s w1 w2. destruct Hshell as [b Hb].
  set (st := {| owner := shell; phase := SuspendedStart; buffer := [];
                requests := [] |}).
  assert (Hw1 : SubShell_call E shell M_readStream w =
                (set_streams (streams w ++ [st]) w, Generator s)).
  { unfold SubShell_call. by rewrite Hb. }
  assert (Hs1 : streams w1 !! s = Some st).
  { unfold w1. rewrite Hw1. simpl. by apply list_lookup_middle. }
  assert (Hw2 : gen_return s w1 =
                (put_stream s (set_phase Completed st) w1, IterDone)).
  { unfold gen_return. by rewrite Hs1. }
  assert (Hs2 : streams w2 !! s = Some (set_phase Completed st)).
  { unfold w2. rewrite Hw2. unfold put_stream. simpl.
    apply list_lookup_insert_eq. by apply lookup_lt_Some in Hs1. }
  subst w2 w1 s. split_and!.
  - by rewrite Hw1.
  - by rewrite Hw1.
  - by rewrite Hw1.
  - by rewrite Hw1.
  - by rewrite Hw1.
  - by rewrite Hw2.
  - by rewrite Hw2, Hw1.
  - by rewrite Hw2, Hw1.
  - by rewrite Hw2, Hw1.
  - unfold gen_next. by rewrite Hs2.
  - unfold push. by rewrite Hs2.
Qed.

(** X2. After a sequence of registrations on a new session, [run] calls
    a handler, giving it a new context, for exactly the non-empty names
    that were registered. *)
Theorem run_reaches_registered_names
    (name : string) (args : list string) (flags : Parsed)
    (rs : list Registration) :
  let w := register_all rs XtermJSShell_new in
  (name ≠ "" ∧ name ∈ reg_name <$> rs)
  ↔ ∃ rest,
      trace (run E (Some name) args flags w).1 =
        trace w ++ HandlerCall name (length (subshells w)) args flags :: rest.
Proof.
  intros w. rewrite <- dispatches_register_all. fold w. split.
  - intros Hd.
    destruct (dispatches_Some _ _ Hd) as (name' & entry & [= <-] & Hname & Hget).
    destruct (run_found name args flags w entry Hname Hget) as [Hint _].
    destruct (internal_trace_extends _ _ Hint) as [rest Hrest].
    exists rest. rewrite Hrest. simpl. by rewrite <- app_assoc.
  - intros [rest Hrest].
    destruct (dispatches (Some name) w) eqn:Hd; [done|]. exfalso.
    assert (Hw : (run E (Some name) args flags w).1 = w).
    { unfold run, falsy. unfold dispatches in Hd.
      destruct (bool_decide (name = "")); [done|]. simpl in Hd.
      by rewrite Hd. }
    rewrite Hw in Hrest. apply (f_equal length) in Hrest.
    rewrite length_app in Hrest. simpl in Hrest. lia.
Qed.

End Further.

(** ** The further properties at work *)

Lemma autoComplete_follows_registration_witness :
  (2%Z ≠ 0%Z ∧ "ls" ≠ "echo")
  ∧ autoCompleteCommands 2 ["echo"; "a"; "b"]
      (command "echo" gen_abc None
         (command "echo" gen_abc (Some echo_provider) XtermJSShell_new))
    = [].
Proof.
  assert (Hk : 2%Z ≠ 0%Z) by done.
  assert (Hother : "ls" ≠ "echo") by done.
  split; [by split|].
  exact (proj1 (autoComplete_follows_registration 2 "echo" "ls" ["a"; "b"]
                  gen_abc None
                  (command "echo" gen_abc (Some echo_provider)
                     XtermJSShell_new)
                  Hk Hother)).
Defined.

Lemma live_context_is_transparent_witness :
  let w := SubShell_new XtermJSShell_new in
  (subshells w !! 0 = Some false
   ∧ M_printLine "hi" ≠ M_readStream ∧ M_printLine "hi" ≠ M_destroy)
  ∧ SubShell_call (plain_host []) 0 (M_printLine "hi") w =
      (log (EchoPrintln "hi") w, Undefined).
Proof.
  intros w.
  assert (Hlive : subshells w !! 0 = Some false) by reflexivity.
  assert (Hm1 : M_printLine "hi" ≠ M_readStream) by done.
  assert (Hm2 : M_printLine "hi" ≠ M_destroy) by done.
  split; [by split_and!|].
  exact (live_context_is_transparent (plain_host []) 0 (M_printLine "hi") w
           Hlive Hm1 Hm2).
Defined.

Lemma destroyed_is_permanent_witness :
  let acts :=
    [Register (reg "gen" gen_abc); Run (Some "gen") [] no_flags;
     Act (ACall 0 M_readStream); Act (ANext 0); Act (AData "x")] in
  subshells stale_session !! 0 = Some true
  ∧ subshells (perform_all (plain_host []) acts stale_session) !! 0
    = Some true.
Proof.
  intros acts.
  assert (Hd : subshells stale_session !! 0 = Some true) by reflexivity.
  split; [exact Hd|].
  exact (proj1 (destroyed_is_permanent (plain_host []) acts stale_session 0
                  "late" Hd)).
Defined.

Lemma run_creates_one_context_witness :
  let host := plain_host [] in
  let w := register_all [reg "gen" gen_abc] XtermJSShell_new in
  (dispatches (Some "gen") w = true ∧ dispatches (Some "nope") w = false)
  ∧ length (subshells (run host (Some "gen") [] no_flags w).1) = 1
  ∧ (run host (Some "nope") [] no_flags w).1 = w.
Proof.
  intros host w.
  assert (H1 : dispatches (Some "gen") w = true) by reflexivity.
  assert (H2 : dispatches (Some "nope") w = false) by reflexivity.
  split; [by split|]. split.
  - exact (proj1 (run_creates_one_context host (Some "gen") [] no_flags w)).
  - exact (proj1 (proj2 (run_creates_one_context host (Some "nope") []
                           no_flags w)) H2).
Defined.


Lemma empty_line_is_skipped_witness :
  let host := plain_host ["   "] in
  let w := register_all [reg "gen" gen_abc] XtermJSShell_new in
  (prompt w = Fulfilled "$ "
   ∧ echo_read host (trace w) "$ " = Fulfilled "   "
   ∧ stringToArgv host "   " = Fulfilled []
   ∧ (head ([] : list string) = None ∨ head ([] : list string) = Some "")
   ∧ minimist host [] = Fulfilled no_flags)
  ∧ repl_pass host w = (log (EchoRead "$ ") w, Again).
Proof.
  intros host w.
  assert (H1 : prompt w = Fulfilled "$ ") by reflexivity.
  assert (H2 : echo_read host (trace w) "$ " = Fulfilled "   ") by reflexivity.
  assert (H3 : stringToArgv host "   " = Fulfilled []) by reflexivity.
  assert (H4 : head ([] : list string) = None ∨ head ([] : list string) = Some "")
    by (left; reflexivity).
  assert (H5 : minimist host (tail []) = Fulfilled no_flags) by reflexivity.
  split; [by split_and!|].
  exact (proj1 (empty_line_is_skipped host w "$ " "   " [] no_flags
                  H1 H2 H3 H4 H5)).
Defined.


Lemma handler_returning_nothing_is_an_error_witness :
  let host := plain_host ["hi"] in
  let w := register_all [reg "hi" say_hi] XtermJSShell_new in
  (prompt w = Fulfilled "$ "
   ∧ echo_read host (trace w) "$ " = Fulfilled "hi"
   ∧ stringToArgv host "hi" = Fulfilled ["hi"]
   ∧ minimist host [] = Fulfilled no_flags
   ∧ "hi" ≠ ""
   ∧ Map_get "hi" (commands w) = Some
       {| command_name := "hi"; fn := say_hi; autocomplete := None |})
  ∧ ∃ msg,
      repl_pass host w =
        (log (EchoPrintln msg)
           (log (ConsoleError (TypeError msg))
              (log (TermWrite "hi")
                 (log (HandlerCall "hi" 0 [] no_flags)
                    (SubShell_new (log (EchoRead "$ ") w))))), Again).
Proof.
  intros host w.
  assert (H1 : prompt w = Fulfilled "$ ") by reflexivity.
  assert (H2 : echo_read host (trace w) "$ " = Fulfilled "hi") by reflexivity.
  assert (H3 : stringToArgv host "hi" = Fulfilled ["hi"]) by reflexivity.
  assert (H4 : minimist host [] = Fulfilled no_flags) by reflexivity.
  assert (H5 : "hi" ≠ "") by done.
  assert (H6 : Map_get "hi" (commands w) = Some
       {| command_name := "hi"; fn := say_hi; autocomplete := None |})
    by reflexivity.
  split; [by split_and!|].
  destruct (handler_returning_nothing_is_an_error host w
              (log (TermWrite "hi")
                 (log (HandlerCall "hi" 0 [] no_flags)
                    (SubShell_new (log (EchoRead "$ ") w))))
              "$ " "hi" "hi" [] no_flags _ H1 H2 H3 H4 H5 H6 eq_refl)
    as (msg & _ & Hpass).
  by exists msg.
Defined.

Lemma listeners_are_running_streams_witness :
  let host := plain_host [] in
  let acts :=
    [Register (reg "key" read_key); Run (Some "key") [] no_flags;
     Act (ACall 0 M_readStream)] in
  let w := perform_all host acts XtermJSShell_new in
  (phase <$> (streams w !! 1) = Some SuspendedStart)
  ∧ NoDup (listeners w)
  ∧ (phase <$> (streams (term_data "x" w) !! 1)) = Some SuspendedStart.
Proof.
  intros host acts w.
  assert (H : phase <$> (streams w !! 1) = Some SuspendedStart) by reflexivity.
  pose proof (listeners_are_running_streams host acts) as (Hnd & _ & Hdata).
  split_and!; [exact H | exact Hnd |].
  exact (f_equal (fmap phase) (Hdata 1 _ "x" eq_refl (or_introl eq_refl))).
Defined.

Lemma chunks_reach_consumer_in_order_witness :
  let host := plain_host [] in
  let w :=
    perform_all host
      [Act (ACall 0 M_readStream); Act (ANext 0); Act (AData "a")]
      (SubShell_new XtermJSShell_new) in
  (listen_inv w
   ∧ phase <$> (streams w !! 0) = Some SuspendedYield
   ∧ is_destroyed 0 w = false)
  ∧ (pulls 2 0 (emit_all ["b"; "c"] w)).2 = [IterValue "b"; IterValue "c"].
Proof.
  intros host w.
  assert (Hinv : listen_inv w).
  { apply listen_inv_perform_all.
    by apply (listen_inv_same XtermJSShell_new), listen_inv_new. }
  assert (Hph : phase <$> (streams w !! 0) = Some SuspendedYield)
    by reflexivity.
  assert (Hlive : is_destroyed 0 w = false) by reflexivity.
  split; [by split_and!|].
  exact (proj1 (proj2 (chunks_reach_consumer_in_order w 0 _ ["b"; "c"]
                         Hinv eq_refl eq_refl Hlive))).
Defined.

Lemma destroyed_stream_yields_nothing_witness :
  let host := plain_host [] in
  let w :=
    perform_all host
      [Register (reg "key" read_key); Run (Some "key") [] no_flags;
       Act (AData "z")]
      XtermJSShell_new in
  (buffer <$> (streams w !! 0) = Some ["z"] ∧ is_destroyed 0 w = true)
  ∧ (gen_next 0 w).2 = IterDone
  ∧ attached (gen_next 0 w).1 = true.
Proof.
  intros host w.
  assert (Hb : buffer <$> (streams w !! 0) = Some ["z"]) by reflexivity.
  assert (Hd : is_destroyed 0 w = true) by reflexivity.
  split; [by split|].
  pose proof (destroyed_stream_yields_nothing w 0 _ eq_refl Hd)
    as (_ & Hdrop & _).
  destruct (Hdrop eq_refl ltac:(done)) as (Hr & _ & Ha).
  by split.
Defined.

Lemma readStream_is_lazy_witness :
  let w := SubShell_new XtermJSShell_new in
  is_Some (subshells w !! 0)
  ∧ (SubShell_call (plain_host []) 0 M_readStream w).2 = Generator 0
  ∧ attached (gen_return 0 (SubShell_call (plain_host []) 0 M_readStream w).1).1
    = true.
Proof.
  intros w.
  assert (H : is_Some (subshells w !! 0)) by (by eexists).
  pose proof (readStream_is_lazy (plain_host []) 0 w "x" H)
    as (Hr & _ & _ & _ & (_ & Ha & _) & _).
  split_and!; [exact H | exact Hr | exact Ha].
Defined.
